(** * Finding Gnosis: the per-frame update of [game.js]

    A shallow embedding of the simulation core of [src/game.js]: the
    module-level state ([gameRunning], [player], [hazards], [keys]), the
    keyboard and button handlers that write it, and [update] with its
    helpers [rectIntersect], [resetPlayer] and [completeLevel].

    Conventions of the embedding.
    - JavaScript numbers are modelled by exact rationals ([Q]): every
      arithmetic operation of [update] is an addition, a subtraction or a
      multiplication by [-1], and every test is an order comparison.
      The engine rounds each sum to a binary64 number. For the player
      every number of the level is a multiple of one half and the sums are
      exact; for the hazards, whose speed 1.2 is not a binary64 number,
      the step is given a second time on binary64 numbers
      ([moveHazard64]), and the theorems on the position of a moving
      hazard are stated for numbers whose sums the engine does not round.
    - The global objects become one record [Game] that is passed to and
      returned from every function.
    - [keys] is a JavaScript object used as a map from [KeyboardEvent.code]
      to a boolean: a [gmap string bool].
    - The timers started by [resetPlayer] and [completeLevel] are returned
      as a list of requested effects next to the new state; the callbacks
      only touch [player.color] and the DOM, and run on a [Page] that holds
      the pending timers and the containers.
    - [draw] and [initGame]'s canvas set-up read the state but never write
      it, and are left out. *)

From Stdlib Require Import QArith Qminmax Qround Qabs Lqa Lia List Bool.
From stdpp Require Import base option gmap strings.
From Stdlib Require Import PrimFloat FloatOps SpecFloat.
Import ListNotations.

Local Open Scope Q_scope.

(** ** Numbers *)

(** [a < b] and [a > b] on numbers, as booleans. *)
Definition Qltb (a b : Q) : bool := negb (Qle_bool b a).
Definition Qgtb (a b : Q) : bool := Qltb b a.
Definition Qgeb (a b : Q) : bool := Qle_bool b a.

Infix "<?" := Qltb (at level 70, no associativity) : Q_scope.
Infix ">?" := Qgtb (at level 70, no associativity) : Q_scope.
Infix "<=?" := Qle_bool (at level 70, no associativity) : Q_scope.
Infix ">=?" := Qgeb (at level 70, no associativity) : Q_scope.

(** Truthiness of a number: [if (n)] runs its branch unless [n] is zero. *)
Definition truthy (n : Q) : bool := negb (Qeq_bool n 0).

(** ** Constants *)

Definition GAME_WIDTH : Q := 800.
Definition GAME_HEIGHT : Q := 600.
Definition GRAVITY : Q := 0.5.
Definition MOVE_SPEED : Q := 4.
Definition JUMP_SPEED : Q := 12.

(** ** Entities *)

(** Everything [rectIntersect] and [drawRect] read of an object. *)
Class Rectangular (A : Type) := {
  x : A -> Q;
  y : A -> Q;
  width : A -> Q;
  height : A -> Q
}.

(** A plain rectangle with a colour: [ground] and [goal]. *)
Record Rect := mkRect {
  rect_x : Q;
  rect_y : Q;
  rect_width : Q;
  rect_height : Q;
  rect_color : string
}.

#[export] Instance Rect_Rectangular : Rectangular Rect :=
  {| x := rect_x; y := rect_y; width := rect_width; height := rect_height |}.

Record Player := mkPlayer {
  player_x : Q;
  player_y : Q;
  player_width : Q;
  player_height : Q;
  vx : Q;
  vy : Q;
  onGround : bool;
  color : string;
  complete : bool
}.

#[export] Instance Player_Rectangular : Rectangular Player :=
  {| x := player_x; y := player_y;
     width := player_width; height := player_height |}.

(** The three properties a moving hazard carries and a static one omits. *)
Record Oscillation := mkOscillation {
  dy : Q;
  rangeTop : Q;
  rangeBottom : Q
}.

Record Hazard := mkHazard {
  hazard_x : Q;
  hazard_y : Q;
  hazard_width : Q;
  hazard_height : Q;
  hazard_color : string;
  oscillation : option Oscillation
}.

#[export] Instance Hazard_Rectangular : Rectangular Hazard :=
  {| x := hazard_x; y := hazard_y;
     width := hazard_width; height := hazard_height |}.

(** ** Level data *)

Definition initial_player : Player :=
  {| player_x := 50; player_y := 500; player_width := 40; player_height := 60;
     vx := 0; vy := 0; onGround := false; color := "#FFD700";
     complete := false |}.

Definition ground : Rect := mkRect 0 560 GAME_WIDTH 40 "#444444".
Definition goal : Rect := mkRect 740 480 40 80 "#4CAF50".

Definition static_hazard : Hazard :=
  mkHazard 400 520 50 50 "#FF4C4C" None.
Definition moving_hazard : Hazard :=
  mkHazard 550 510 50 50 "#8A2BE2" (Some (mkOscillation 1.2 480 540)).

Definition initial_hazards : list Hazard := [static_hazard; moving_hazard].

(** ** The state of the module *)

Record Game := mkGame {
  gameRunning : bool;
  player : Player;
  hazards : list Hazard;
  keys : gmap string bool
}.

Definition initial_game : Game :=
  {| gameRunning := false; player := initial_player;
     hazards := initial_hazards; keys := ∅ |}.

(** [keys[code]] in a condition: a code never seen reads [undefined]. *)
Definition pressed (ks : gmap string bool) (code : string) : bool :=
  default false (ks !! code).

(** Timers requested during a step. *)
Inductive Effect :=
| FlashPlayer (flashes : nat) (interval_ms : nat)
| ShowEmailFormAfter (delay_ms : nat).

(** ** [rectIntersect] *)

Definition rectIntersect {A B : Type} `{Rectangular A} `{Rectangular B}
    (a : A) (b : B) : bool :=
  (x a <? x b + width b) &&
  (x a + width a >? x b) &&
  (y a <? y b + height b) &&
  (y a + height a >? y b).

(** ** Field assignments

    [set_f v o] is the object [o] after [o.f = v]. *)

Definition set_x (v : Q) (p : Player) : Player :=
  mkPlayer v (player_y p) (player_width p) (player_height p)
           (vx p) (vy p) (onGround p) (color p) (complete p).
Definition set_y (v : Q) (p : Player) : Player :=
  mkPlayer (player_x p) v (player_width p) (player_height p)
           (vx p) (vy p) (onGround p) (color p) (complete p).
Definition set_vx (v : Q) (p : Player) : Player :=
  mkPlayer (player_x p) (player_y p) (player_width p) (player_height p)
           v (vy p) (onGround p) (color p) (complete p).
Definition set_vy (v : Q) (p : Player) : Player :=
  mkPlayer (player_x p) (player_y p) (player_width p) (player_height p)
           (vx p) v (onGround p) (color p) (complete p).
Definition set_onGround (v : bool) (p : Player) : Player :=
  mkPlayer (player_x p) (player_y p) (player_width p) (player_height p)
           (vx p) (vy p) v (color p) (complete p).
Definition set_complete (v : bool) (p : Player) : Player :=
  mkPlayer (player_x p) (player_y p) (player_width p) (player_height p)
           (vx p) (vy p) (onGround p) (color p) v.

Definition set_hazard_y (v : Q) (hz : Hazard) : Hazard :=
  mkHazard (hazard_x hz) v (hazard_width hz) (hazard_height hz)
           (hazard_color hz) (oscillation hz).
Definition set_dy (v : Q) (hz : Hazard) : Hazard :=
  mkHazard (hazard_x hz) (hazard_y hz) (hazard_width hz) (hazard_height hz)
           (hazard_color hz)
           (match oscillation hz with
            | Some o => Some (mkOscillation v (rangeTop o) (rangeBottom o))
            | None => None
            end).

(** ** [resetPlayer] and [completeLevel] *)

(** The spawn point is written out in [resetPlayer]; the flash it starts
    toggles the colour six times, once every 100 ms. *)
Definition resetPlayer (p : Player) : Player * list Effect :=
  (set_onGround false (set_vy 0 (set_vx 0 (set_y 500 (set_x 50 p)))),
   [FlashPlayer 6 100]).

Definition completeLevel (p : Player) : Player * list Effect :=
  (set_complete true p, [ShowEmailFormAfter 300]).

(** ** [update] *)

(** Lines 126-133: horizontal movement. *)
Definition horizontalMovement (ks : gmap string bool) (p : Player) : Player :=
  if pressed ks "ArrowLeft" then set_vx (- MOVE_SPEED) p
  else if pressed ks "ArrowRight" then set_vx MOVE_SPEED p
  else set_vx 0 p.

(** Lines 135-139: jumping. *)
Definition jumping (ks : gmap string bool) (p : Player) : Player :=
  if pressed ks "ArrowUp" && onGround p
  then set_onGround false (set_vy (- JUMP_SPEED) p)
  else p.

(** Lines 141-142: gravity. *)
Definition applyGravity (p : Player) : Player :=
  set_vy (vy p + GRAVITY) p.

(** Lines 144-146: position. *)
Definition updatePosition (p : Player) : Player :=
  let p := set_x (x p + vx p) p in
  set_y (y p + vy p) p.

(** Lines 148-150: horizontal bounds. *)
Definition keepInBounds (p : Player) : Player :=
  let p := if x p <? 0 then set_x 0 p else p in
  if x p + width p >? GAME_WIDTH then set_x (GAME_WIDTH - width p) p else p.

(** Lines 152-157: collision with the ground. *)
Definition groundCollision (p : Player) : Player :=
  if y p + height p >? y ground
  then set_onGround true (set_vy 0 (set_y (y ground - height p) p))
  else p.

(** Lines 126-150: the move before the ground is looked at. *)
Definition freeMove (ks : gmap string bool) (p : Player) : Player :=
  keepInBounds
    (updatePosition (applyGravity (jumping ks (horizontalMovement ks p)))).

(** The player's part of a step, up to the hazard loop. *)
Definition movePlayer (ks : gmap string bool) (p : Player) : Player :=
  groundCollision (freeMove ks p).

(** Lines 162-167: a hazard with a truthy [dy] moves and turns around at
    either end of its range. *)
Definition moveHazard (hz : Hazard) : Hazard :=
  match oscillation hz with
  | Some o =>
      if truthy (dy o) then
        let hz := set_hazard_y (y hz + dy o) hz in
        if (y hz <=? rangeTop o) || (y hz + height hz >=? rangeBottom o)
        then set_dy (dy o * -1) hz
        else hz
      else hz
  | None => hz
  end.

(** Lines 160-172: [hazards.forEach]. Each hazard is moved, then tested
    against the player as the earlier iterations left it. *)
Fixpoint forEachHazard (hzs : list Hazard) (p : Player)
    : list Hazard * Player * list Effect :=
  match hzs with
  | [] => ([], p, [])
  | hz :: rest =>
      let hz := moveHazard hz in
      let '(p, fx) := if rectIntersect p hz then resetPlayer p else (p, []) in
      let '(rest, p, fx') := forEachHazard rest p in
      (hz :: rest, p, fx ++ fx')
  end.

(** Lines 174-177: the goal. *)
Definition checkGoal (p : Player) : Player * list Effect :=
  if rectIntersect p goal then completeLevel p else (p, []).

Definition update (g : Game) : Game * list Effect :=
  if negb (gameRunning g) || complete (player g) then (g, [])
  else
    let p := movePlayer (keys g) (player g) in
    let '(hzs, p, fx) := forEachHazard (hazards g) p in
    let '(p, fx') := checkGoal p in
    (mkGame (gameRunning g) p hzs (keys g), fx ++ fx').

(** ** The host

    What the browser can do to the module: deliver a key event, click the
    Begin button ([startGame]) or run one animation frame ([gameLoop]). *)

Inductive Event :=
| KeyDown (code : string)
| KeyUp (code : string)
| Begin
| Frame.

Definition startGame (g : Game) : Game :=
  mkGame true (player g) (hazards g) (keys g).

Definition handle (e : Event) (g : Game) : Game * list Effect :=
  match e with
  | KeyDown code =>
      (mkGame (gameRunning g) (player g) (hazards g) (<[code := true]> (keys g)), [])
  | KeyUp code =>
      (mkGame (gameRunning g) (player g) (hazards g) (<[code := false]> (keys g)), [])
  | Begin => (startGame g, [])
  | Frame => update g
  end.

Fixpoint run (es : list Event) (g : Game) : Game * list Effect :=
  match es with
  | [] => (g, [])
  | e :: es =>
      let '(g, fx) := handle e g in
      let '(g, fx') := run es g in
      (g, fx ++ fx')
  end.

(** [n] consecutive frames with no event in between. *)
Fixpoint frames (n : nat) (g : Game) : Game :=
  match n with
  | O => g
  | S n => frames n (fst (update g))
  end.

(** [active g]: the guard at the top of [update] lets the step through. *)
Definition active (g : Game) : bool :=
  gameRunning g && negb (complete (player g)).

(** ** Timers and the page

    The interval started by [resetPlayer], the timeout started by
    [completeLevel], and the three containers whose [style.display] the
    script writes. Timers are delivered as events: any order of firing is
    allowed, which covers the order the clock of the browser produces. *)

Definition set_color (v : string) (p : Player) : Player :=
  mkPlayer (player_x p) (player_y p) (player_width p) (player_height p)
           (vx p) (vy p) (onGround p) v (complete p).

(** Lines 236-243: one run of the interval's callback, with its closure
    variable [flashes]. The second component is the counter left, [None]
    once [clearInterval] was called. *)
Definition flashCallback (flashes : Z) (p : Player) : Player * option Z :=
  let p :=
    set_color (if String.eqb (color p) "#FFD700" then "#333333" else "#FFD700")
              p in
  let flashes := (flashes - 1)%Z in
  if (flashes <=? 0)%Z then (set_color "#FFD700" p, None)
  else (p, Some flashes).

(** The module's state together with what the browser holds for it: the
    counters of the running intervals (oldest first), the number of pending
    [showEmailForm] timeouts and, for each container, its [style.display]
    ([None] when [getElementById] finds no such element). *)
Record Page := mkPage {
  game : Game;
  intervals : list Z;
  timeouts : nat;
  introContainer : option string;
  gameContainer : option string;
  emailContainer : option string
}.

Definition setDisplay (v : string) (element : option string) : option string :=
  match element with
  | Some _ => Some v
  | None => None
  end.

(** Lines 257-262. *)
Definition showEmailForm (pg : Page) : Page :=
  mkPage (game pg) (intervals pg) (timeouts pg) (introContainer pg)
         (setDisplay "none" (gameContainer pg))
         (setDisplay "block" (emailContainer pg)).

(** [setInterval] and [setTimeout] as [resetPlayer] and [completeLevel]
    call them. *)
Definition schedule (pg : Page) (fx : Effect) : Page :=
  match fx with
  | FlashPlayer flashes _ =>
      mkPage (game pg) (intervals pg ++ [Z.of_nat flashes]) (timeouts pg)
             (introContainer pg) (gameContainer pg) (emailContainer pg)
  | ShowEmailFormAfter _ =>
      mkPage (game pg) (intervals pg) (S (timeouts pg))
             (introContainer pg) (gameContainer pg) (emailContainer pg)
  end.

Inductive PageEvent :=
| Input (e : Event)
| IntervalFires (i : nat)
| TimeoutFires.

Definition deliver (e : PageEvent) (pg : Page) : Page :=
  match e with
  | Input e =>
      let '(g, fx) := handle e (game pg) in
      let intro :=
        match e with
        | Begin => setDisplay "none" (introContainer pg)
        | _ => introContainer pg
        end in
      fold_left schedule fx
        (mkPage g (intervals pg) (timeouts pg) intro
                (gameContainer pg) (emailContainer pg))
  | IntervalFires i =>
      match intervals pg !! i with
      | Some flashes =>
          let '(p, remaining) := flashCallback flashes (player (game pg)) in
          let g := mkGame (gameRunning (game pg)) p (hazards (game pg))
                          (keys (game pg)) in
          mkPage g
                 (match remaining with
                  | Some flashes => <[i := flashes]> (intervals pg)
                  | None => delete i (intervals pg)
                  end)
                 (timeouts pg) (introContainer pg) (gameContainer pg)
                 (emailContainer pg)
      | None => pg
      end
  | TimeoutFires =>
      match timeouts pg with
      | S n =>
          showEmailForm
            (mkPage (game pg) (intervals pg) n (introContainer pg)
                    (gameContainer pg) (emailContainer pg))
      | O => pg
      end
  end.

Definition browse (es : list PageEvent) (pg : Page) : Page :=
  fold_left (fun pg e => deliver e pg) es pg.

(** ** The e-mail form

    Strings of the page are sequences of UTF-16 code units. *)

Definition codeUnits (s : string) : list N :=
  map Ascii.N_of_ascii (String.list_ascii_of_string s).

(** The code units [String.prototype.trim] strips: the white space and the
    line terminators of ECMAScript. *)
Definition isWhiteSpace (c : N) : bool :=
  ((9 <=? c) && (c <=? 13) || (c =? 32) || (c =? 160) || (c =? 5760) ||
   (8192 <=? c) && (c <=? 8202) || (c =? 8232) || (c =? 8233) ||
   (c =? 8239) || (c =? 8287) || (c =? 12288) || (c =? 65279))%N.

Fixpoint trimStart (s : list N) : list N :=
  match s with
  | c :: rest => if isWhiteSpace c then trimStart rest else s
  | [] => []
  end.

Definition trimEnd (s : list N) : list N := rev (trimStart (rev s)).

Definition trim (s : list N) : list N := trimEnd (trimStart s).

(** The two elements [handleEmailSubmit] looks up: the value of the input
    and the text of the message, [None] for an element that is not there. *)
Record EmailForm := mkEmailForm {
  emailInput : option (list N);
  emailMessage : option (list N)
}.

(** Lines 267-280. The boolean says that [event.preventDefault] was
    called. A string is truthy unless it is empty. *)
Definition handleEmailSubmit (f : EmailForm) : EmailForm * bool :=
  (match emailInput f, emailMessage f with
   | Some value, Some _ =>
       match trim value with
       | _ :: _ =>
           mkEmailForm (Some [])
                       (Some (codeUnits "Thank you! We'll be in touch."))
       | [] =>
           mkEmailForm (Some value)
                       (Some (codeUnits "Please enter a valid email address."))
       end
   | _, _ => f
   end, true).

(** ** The hazard step on the numbers of the engine

    [moveHazard] adds and compares exact rationals. The engine works on
    binary64 numbers and rounds every sum to the nearest one. The step is
    given here a second time on those numbers, for a hazard that has the
    three properties: where every sum of [moveHazard] is itself a binary64
    number the two agree, and elsewhere this one says what the code does. *)

#[local] Set Warnings "-inexact-float".

Record Hazard64 := mkHazard64 {
  y64 : float;
  height64 : float;
  dy64 : float;
  rangeTop64 : float;
  rangeBottom64 : float
}.

(** [if (n)] on a binary64 number: zero and NaN are falsy. *)
Definition truthy64 (n : float) : bool :=
  negb (PrimFloat.eqb n 0%float) && PrimFloat.eqb n n.

(** Lines 162-167 on binary64 numbers. *)
Definition moveHazard64 (hz : Hazard64) : Hazard64 :=
  if truthy64 (dy64 hz) then
    let y' := PrimFloat.add (y64 hz) (dy64 hz) in
    if PrimFloat.leb y' (rangeTop64 hz)
       || PrimFloat.leb (rangeBottom64 hz) (PrimFloat.add y' (height64 hz))
    then mkHazard64 y' (height64 hz)
                    (PrimFloat.mul (dy64 hz) (-1)%float)
                    (rangeTop64 hz) (rangeBottom64 hz)
    else mkHazard64 y' (height64 hz) (dy64 hz)
                    (rangeTop64 hz) (rangeBottom64 hz)
  else hz.

(** The rational a finite binary64 number stands for. *)
Definition exactValue (n : float) : Q :=
  match Prim2SF n with
  | S754_finite negative m e =>
      inject_Z (if negative then Z.neg m else Z.pos m) * 2 ^ e
  | _ => 0
  end.

(** * Vocabulary of the statements

    Observations, invariants and sample states used below. None of them is
    part of [game.js]. *)

(** ** The player *)

(** The player after [resetPlayer]. *)
Definition spawned (p : Player) : Player := (resetPlayer p).1.

(** What no part of the move assigns: the size and the [complete] flag. *)
Definition body (p : Player) : Q * Q * bool :=
  (width p, height p, complete p).

(** Between the left and the right wall. *)
Definition inBounds (p : Player) : Prop :=
  0 <= x p /\ x p <= GAME_WIDTH - width p.

(** ** Keys *)

(** [update] reads three keys only. *)
Definition sameKeys (ks ks' : gmap string bool) : Prop :=
  pressed ks "ArrowLeft" = pressed ks' "ArrowLeft" /\
  pressed ks "ArrowRight" = pressed ks' "ArrowRight" /\
  pressed ks "ArrowUp" = pressed ks' "ArrowUp".

Definition withKeys (ks : gmap string bool) (g : Game) : Game :=
  mkGame (gameRunning g) (player g) (hazards g) ks.

(** Only the right arrow is down. *)
Definition right_only : gmap string bool := {["ArrowRight" := true]}.

(** ** Hazards *)

(** The number of steps as a number. *)
Definition Qnat (n : nat) : Q := inject_Z (Z.of_nat n).

(** The speed of a hazard, zero for a static one. *)
Definition speed (hz : Hazard) : Q :=
  match oscillation hz with
  | Some o => dy o
  | None => 0
  end.

(** [Osc hz h rt rb yv d]: [hz] is a moving hazard of height [h] and range
    [rt .. rb], its top edge at [yv] and its speed [d] (as numbers: the
    fractions that represent them are left open). *)
Definition Osc (hz : Hazard) (h rt rb yv d : Q) : Prop :=
  height hz = h /\
  exists o, oscillation hz = Some o /\
            rangeTop o = rt /\ rangeBottom o = rb /\
            y hz == yv /\ dy o == d.

(** The first step that brings the bottom edge of a hazard moving down to
    [rangeBottom] or past it. *)
Definition turnTick (hz : Hazard) (o : Oscillation) : nat :=
  Z.to_nat
    (Z.max 1 (Qceiling ((rangeBottom o - height hz - y hz) / dy o))).

(** Within the range: the reading of "stays within [rangeTop, rangeBottom]"
    for a hazard with a descriptor. *)
Definition inRange (hz : Hazard) : Prop :=
  forall o, oscillation hz = Some o ->
    rangeTop o <= y hz /\ y hz + height hz <= rangeBottom o.

(** Within one step of the range. *)
Definition nearRange (hz : Hazard) : Prop :=
  forall o, oscillation hz = Some o ->
    rangeTop o - Qabs (dy o) <= y hz /\
    y hz + height hz <= rangeBottom o + Qabs (dy o).

(** What a step keeps: the range can hold the hazard, the hazard is within
    one step of it, and when it is outside it is heading back in. *)
Definition heading (hz : Hazard) : Prop :=
  forall o, oscillation hz = Some o ->
    rangeTop o + height hz <= rangeBottom o /\
    rangeTop o - Qabs (dy o) <= y hz /\
    y hz + height hz <= rangeBottom o + Qabs (dy o) /\
    (y hz < rangeTop o -> 0 < dy o) /\
    (rangeBottom o < y hz + height hz -> dy o < 0).

(** ** Sample states *)

(** The game running, the player at the spawn point at rest, the level of
    the source. *)
Definition at_spawn (onGround0 : bool) (ks : gmap string bool) : Game :=
  mkGame true (set_onGround onGround0 initial_player) initial_hazards ks.

(** The player at x = 410, resting at y = 500: it overlaps the static
    hazard at (400, 520, 50, 50). *)
Definition overlapping_static_hazard : Game :=
  mkGame true (set_x 410 initial_player) initial_hazards ∅.

(** The player standing on the ground inside the goal. *)
Definition at_goal : Game :=
  mkGame true (set_onGround true (set_x 740 initial_player))
         initial_hazards ∅.

(** A moving hazard just short of the bottom of its range. *)
Definition hazard_near_bottom : Hazard := set_hazard_y 489 moving_hazard.

(** ** Runs *)

(** Whether a key is down after a sequence of events, given whether it was
    down before. *)
Fixpoint keyAfter (es : list Event) (code : string) (down : bool) : bool :=
  match es with
  | [] => down
  | KeyDown c :: es => keyAfter es code (if String.eqb c code then true else down)
  | KeyUp c :: es => keyAfter es code (if String.eqb c code then false else down)
  | _ :: es => keyAfter es code down
  end.

Definition isFormRequest (fx : Effect) : bool :=
  match fx with
  | ShowEmailFormAfter _ => true
  | FlashPlayer _ _ => false
  end.

Definition isFlashRequest (fx : Effect) : bool :=
  match fx with
  | FlashPlayer _ _ => true
  | ShowEmailFormAfter _ => false
  end.

Definition formRequests (fx : list Effect) : nat :=
  length (List.filter isFormRequest fx).

Definition flashRequests (fx : list Effect) : nat :=
  length (List.filter isFlashRequest fx).

Definition isFrame (e : Event) : bool :=
  match e with
  | Frame => true
  | _ => false
  end.

(** ** Flight *)

(** What free flight conserves: with [vy' = vy + 1/2] and [y' = y + vy'],
    [y - vy^2 - vy/2] does not change. *)
Definition energy (p : Player) : Q := y p - vy p * vy p - vy p * (1 # 2).

(** The states of a player of height 60 that jumps from the ground line
    [y = 500]: speeds are multiples of one half, the energy is at least that
    of a fresh jump, and a player on the ground rests at [y = 500]. *)
Definition inFlight (p : Player) : Prop :=
  height p == 60 /\ y p <= 500 /\
  (exists m : Z, vy p == inject_Z m * (1 # 2)) /\
  362 <= energy p /\
  (onGround p = true -> y p == 500 /\ vy p == 0).

(** ** The level of the source *)

(** What holds of the source's level as long as the up key was never
    pressed: the player rests on the ground line, left of the static
    hazard, and the game is not complete. *)
Definition groundedLeftOfHazard (g : Game) : Prop :=
  pressed (keys g) "ArrowUp" = false /\
  complete (player g) = false /\
  width (player g) == 40 /\ height (player g) == 60 /\
  0 <= x (player g) /\ x (player g) <= 360 /\
  y (player g) == 500 /\ vy (player g) == 0 /\
  exists hz, hazards g = [static_hazard; hz] /\ x hz = 550.

(** A way through the source's level: walk right, jump the static hazard,
    land between the hazards, jump the moving one, walk into the goal. *)
Definition winning_run : list Event :=
  [Begin; KeyDown "ArrowRight"] ++ replicate 60 Frame ++
  [KeyDown "ArrowUp"; Frame; KeyUp "ArrowUp"] ++ replicate 48 Frame ++
  [KeyDown "ArrowUp"; Frame; KeyUp "ArrowUp"] ++ replicate 53 Frame.

(** ** The page *)

(** The counters of the intervals a list of requests starts. *)
Definition flashCounters (fx : list Effect) : list Z :=
  flat_map (fun e => match e with
                     | FlashPlayer flashes _ => [Z.of_nat flashes]
                     | ShowEmailFormAfter _ => []
                     end) fx.

(** What the flash keeps: every running interval has between one and six
    runs left, the player has one of the two colours, and it is gold when
    no interval runs. *)
Definition flashing (pg : Page) : Prop :=
  Forall (fun n => (1 <= n <= 6)%Z) (intervals pg) /\
  (color (player (game pg)) = "#FFD700" \/
   color (player (game pg)) = "#333333") /\
  (intervals pg = [] -> color (player (game pg)) = "#FFD700").

(** What the form keeps: before the goal no timeout is pending and nothing
    has shown the form or hidden the game; after it at most one timeout is
    pending. *)
Definition formPending (pg : Page) : Prop :=
  if complete (player (game pg))
  then (timeouts pg <= 1)%nat
  else timeouts pg = 0%nat /\
       emailContainer pg <> Some "block" /\ gameContainer pg <> Some "none".

(** A page as the script finds it: nothing scheduled, the three containers
    there, the form hidden. *)
Definition sample_page : Page :=
  mkPage initial_game [] 0 (Some "block") (Some "block") (Some "none").

(** ** Numbers the engine adds exactly *)

Definition scale (e : nat) : Q := inject_Z (2 ^ Z.of_nat e).

(** [q] is a whole multiple of [2^-e]. *)
Definition dyadic (e : nat) (q : Q) : Prop :=
  exists m : Z, q * scale e == inject_Z m.

(** A multiple [m / 2^e] with [|m| <= 2^50 = 1125899906842624]: what the
    numbers of a hazard are asked to be. *)
Definition onGrid (e : nat) (q : Q) : Prop :=
  dyadic e q /\ Qabs q * scale e <= 1125899906842624.

(** A multiple [m / 2^e] with [|m| < 2^53 = 9007199254740992] and
    [e <= 1000]: a binary64 number, so that a sum with this value is not
    rounded. *)
Definition exact64 (e : nat) (q : Q) : Prop :=
  (e <= 1000)%nat /\ dyadic e q /\ Qabs q * scale e < 9007199254740992.

(** The numbers of a hazard are on the grid. Of [y] only the grain
    is asked: its size follows from the range. *)
Definition gridHazard (e : nat) (hz : Hazard) : Prop :=
  dyadic e (y hz) /\ onGrid e (height hz) /\
  forall o, oscillation hz = Some o ->
    onGrid e (dy o) /\ onGrid e (rangeTop o) /\ onGrid e (rangeBottom o).

(** Every number the next step of a moving hazard reads or computes is a
    binary64 number: [hz.y], [hz.y + hz.dy] and the two bottom edges
    [hz.y + hz.height] before and after the move. *)
Definition stepExact (e : nat) (hz : Hazard) : Prop :=
  forall o, oscillation hz = Some o ->
    exact64 e (y hz) /\ exact64 e (y hz + height hz) /\
    exact64 e (y hz + dy o) /\ exact64 e (y hz + dy o + height hz).

(** A level whose moving hazard starts at the top of its range with the
    speed 1.5: all its numbers are multiples of one half. *)
Definition dyadic_hazard : Hazard :=
  mkHazard 550 480 50 50 "#8A2BE2" (Some (mkOscillation 1.5 480 540)).
Definition dyadic_level : Game :=
  mkGame true initial_player [static_hazard; dyadic_hazard] ∅.

(** The same hazard on the numbers of the engine. *)
Definition dyadic_hazard64 : Hazard64 := mkHazard64 480 50 1.5 480 540.

(** A hazard that fits its range exactly, at the top of it, with a speed
    that is not a binary64 number. *)
Definition rounded_hazard : Hazard64 :=
  mkHazard64 10.25 50 0.3 10.25 60.25.

(** The moving hazard of the source at the top of a range that ends at
    542, in exact numbers and on the numbers of the engine. *)
Definition late_hazard : Hazard :=
  mkHazard 550 480 50 50 "#8A2BE2" (Some (mkOscillation 1.2 480 542)).
Definition late_hazard64 : Hazard64 := mkHazard64 480 50 1.2 480 542.

(** * Properties *)

(** ** Comparisons *)

Lemma Qltb_lt (a b : Q) : (a <? b) = true <-> a < b.
Proof.
  unfold Qltb. rewrite negb_true_iff, <- not_true_iff_false, Qle_bool_iff.
  split; [apply Qnot_le_lt | apply Qlt_not_le].
Qed.

Lemma Qltb_ge (a b : Q) : (a <? b) = false <-> b <= a.
Proof.
  unfold Qltb. rewrite negb_false_iff. apply Qle_bool_iff.
Qed.

Lemma Qgtb_gt (a b : Q) : (a >? b) = true <-> b < a.
Proof. apply Qltb_lt. Qed.

Lemma Qgtb_le (a b : Q) : (a >? b) = false <-> a <= b.
Proof. apply Qltb_ge. Qed.

Lemma Qgeb_ge (a b : Q) : (a >=? b) = true <-> b <= a.
Proof. apply Qle_bool_iff. Qed.

Lemma Qleb_gt (a b : Q) : (a <=? b) = false <-> b < a.
Proof.
  rewrite <- not_true_iff_false, Qle_bool_iff.
  split; [apply Qnot_le_lt | apply Qlt_not_le].
Qed.

Lemma truthy_nonzero (n : Q) : truthy n = true <-> ~ n == 0.
Proof.
  unfold truthy. rewrite negb_true_iff, <- not_true_iff_false, Qeq_bool_iff.
  reflexivity.
Qed.

(** Turn every boolean comparison in sight into its proposition. *)
Ltac qbool :=
  repeat match goal with
  | H : (_ && _) = true |- _ => apply andb_true_iff in H; destruct H
  | H : (_ || _) = false |- _ => apply orb_false_iff in H; destruct H
  | H : (_ <? _) = true |- _ => apply Qltb_lt in H
  | H : (_ <? _) = false |- _ => apply Qltb_ge in H
  | H : (_ >? _) = true |- _ => apply Qgtb_gt in H
  | H : (_ >? _) = false |- _ => apply Qgtb_le in H
  | H : (_ >=? _) = true |- _ => apply Qgeb_ge in H
  | H : (_ >=? _) = false |- _ => apply Qleb_gt in H
  | H : (_ <=? _) = true |- _ => apply Qle_bool_iff in H
  | H : (_ <=? _) = false |- _ => apply Qleb_gt in H
  | H : truthy _ = true |- _ => apply truthy_nonzero in H
  end.

(** ** [rectIntersect] *)

Section RectIntersect.
Context {A B : Type} `{Rectangular A} `{Rectangular B}.

Lemma rectIntersect_true (a : A) (b : B) :
  rectIntersect a b = true <->
  x a < x b + width b /\ x b < x a + width a /\
  y a < y b + height b /\ y b < y a + height a.
Proof.
  unfold rectIntersect.
  rewrite !andb_true_iff, !Qltb_lt, !Qgtb_gt. tauto.
Qed.

Lemma rectIntersect_sym (a : A) (b : B) :
  rectIntersect a b = rectIntersect b a.
Proof.
  unfold rectIntersect, Qgtb.
  destruct (x a <? x b + width b), (x b <? x a + width a),
           (y a <? y b + height b), (y b <? y a + height a); reflexivity.
Qed.

Lemma rectIntersect_false (a : A) (b : B) :
  x b + width b <= x a \/ x a + width a <= x b \/
  y b + height b <= y a \/ y a + height a <= y b ->
  rectIntersect a b = false.
Proof.
  intros Hsep. apply not_true_iff_false. rewrite rectIntersect_true.
  intros (? & ? & ? & ?). destruct Hsep as [?|[?|[?|?]]]; lra.
Qed.

(** For rectangles of positive size the test says that some point lies
    strictly inside both. *)
Lemma rectIntersect_common_point (a : A) (b : B) :
  0 < width a -> 0 < height a -> 0 < width b -> 0 < height b ->
  (rectIntersect a b = true <->
   exists px py : Q,
     (x a < px /\ px < x a + width a) /\ (x b < px /\ px < x b + width b) /\
     (y a < py /\ py < y a + height a) /\ (y b < py /\ py < y b + height b)).
Proof.
  intros Hwa Hha Hwb Hhb. rewrite rectIntersect_true. split.
  - intros (Hx1 & Hx2 & Hy1 & Hy2).
    exists ((Qmax (x a) (x b) + Qmin (x a + width a) (x b + width b)) * (1 # 2)),
           ((Qmax (y a) (y b) + Qmin (y a + height a) (y b + height b)) * (1 # 2)).
    destruct (Q.max_spec (x a) (x b)) as [[? Ex]|[? Ex]],
             (Q.min_spec (x a + width a) (x b + width b)) as [[? Ex']|[? Ex']],
             (Q.max_spec (y a) (y b)) as [[? Ey]|[? Ey]],
             (Q.min_spec (y a + height a) (y b + height b)) as [[? Ey']|[? Ey']];
      rewrite Ex, Ex', Ey, Ey'; repeat split; lra.
  - intros (px & py & (? & ?) & (? & ?) & (? & ?) & (? & ?)).
    repeat split; lra.
Qed.
End RectIntersect.

(** ** The hazard loop *)

(** The loop moves every hazard, and it leaves the player alone when no
    moved hazard meets the player it was given; otherwise the player ends at
    the spawn point and a flash was requested. *)
Lemma forEachHazard_cases (hzs : list Hazard) (p : Player) :
  (forEachHazard hzs p).1.1 = map moveHazard hzs /\
  ((Forall (fun hz => rectIntersect p (moveHazard hz) = false) hzs /\
    (forEachHazard hzs p).1.2 = p /\ (forEachHazard hzs p).2 = []) \/
   (Exists (fun hz => rectIntersect p (moveHazard hz) = true) hzs /\
    (forEachHazard hzs p).1.2 = spawned p /\
    In (FlashPlayer 6 100) (forEachHazard hzs p).2)).
Proof.
  revert p. induction hzs as [|hz rest IH]; intros p; simpl.
  - split; [reflexivity|]. left. repeat split; constructor.
  - destruct (rectIntersect p (moveHazard hz)) eqn:Hhit.
    + destruct (IH (spawned p)) as [Hmap Hrest].
      unfold spawned in *. simpl in *.
      destruct (forEachHazard rest _) as [[rest' p'] fx'] eqn:Hloop.
      simpl in *. split; [congruence|]. right.
      split; [left; exact Hhit|].
      split; [|left; reflexivity].
      destruct Hrest as [(_ & -> & _)|(_ & -> & _)]; reflexivity.
    + destruct (IH p) as [Hmap Hrest].
      destruct (forEachHazard rest p) as [[rest' p'] fx'] eqn:Hloop.
      simpl in *. split; [congruence|].
      destruct Hrest as [(Hall & -> & ->)|(Hex & -> & Hfx)].
      * left. repeat split. constructor; assumption.
      * right. repeat split; [right; exact Hex | exact Hfx].
Qed.

(** The loop requests nothing but flashes. *)
Lemma forEachHazard_effects (hzs : list Hazard) (p : Player) (fx : Effect) :
  In fx (forEachHazard hzs p).2 -> fx = FlashPlayer 6 100.
Proof.
  revert p. induction hzs as [|hz rest IH]; intros p; simpl; [intros []|].
  destruct (rectIntersect p (moveHazard hz)); cbn [resetPlayer fst snd].
  - specialize (IH (spawned p)). unfold spawned, resetPlayer in IH.
    cbn [fst] in IH.
    destruct (forEachHazard rest _) as [[rest' p'] fx']. cbn [fst snd app] in *.
    intros [Hin|Hin]; [congruence | exact (IH Hin)].
  - specialize (IH p).
    destruct (forEachHazard rest p) as [[rest' p'] fx']. cbn [fst snd app] in *.
    exact IH.
Qed.

Lemma forEachHazard_hazards (hzs : list Hazard) (p : Player) :
  (forEachHazard hzs p).1.1 = map moveHazard hzs.
Proof. apply forEachHazard_cases. Qed.

(** Whatever the loop does to the player, it ends as [p] or at the spawn. *)
Lemma forEachHazard_player (hzs : list Hazard) (p : Player) :
  ((forEachHazard hzs p).1.2 = p /\ (forEachHazard hzs p).2 = []) \/
  ((forEachHazard hzs p).1.2 = spawned p /\
   In (FlashPlayer 6 100) (forEachHazard hzs p).2).
Proof.
  destruct (forEachHazard_cases hzs p) as [_ [(_ & ? & ?)|(_ & ? & ?)]]; auto.
Qed.

(** ** [update], unfolded *)

Lemma update_inactive (g : Game) : active g = false -> update g = (g, []).
Proof.
  unfold active, update. intros Hg.
  destruct (gameRunning g), (complete (player g)); simpl in *;
    congruence.
Qed.

Lemma update_active (g : Game) :
  active g = true ->
  update g =
    let p := movePlayer (keys g) (player g) in
    let loop := forEachHazard (hazards g) p in
    let goal_check := checkGoal loop.1.2 in
    (mkGame (gameRunning g) goal_check.1 loop.1.1 (keys g),
     loop.2 ++ goal_check.2).
Proof.
  unfold active, update. intros Hg.
  destruct (gameRunning g), (complete (player g)); simpl in *;
    try congruence.
  destruct (forEachHazard _ _) as [[hzs p] fx]. cbn [fst snd].
  destruct (checkGoal p) as [p' fx']. reflexivity.
Qed.

Lemma active_true (g : Game) :
  active g = true <-> gameRunning g = true /\ complete (player g) = false.
Proof.
  unfold active. rewrite andb_true_iff, negb_true_iff. reflexivity.
Qed.

Lemma active_false (g : Game) :
  active g = false <-> gameRunning g = false \/ complete (player g) = true.
Proof.
  unfold active. rewrite andb_false_iff, negb_false_iff. reflexivity.
Qed.

(** ** The player's move *)

(** Read a field of an object after some assignments, without touching
    the arithmetic. *)
Ltac fields :=
  cbn [x y width height Player_Rectangular Hazard_Rectangular Rect_Rectangular
       player_x player_y player_width player_height vx vy onGround color
       complete set_x set_y set_vx set_vy set_onGround set_complete
       hazard_x hazard_y hazard_width hazard_height hazard_color oscillation
       set_hazard_y set_dy dy rangeTop rangeBottom
       rect_x rect_y rect_width rect_height fst snd] in *.

(** Case analysis on every conditional of the goal. *)
Ltac branches :=
  fields;
  repeat match goal with
  | |- context [if ?c then _ else _] => destruct c eqn:?; fields
  end.

Lemma body_eq (p q : Player) :
  body p = body q ->
  width p = width q /\ height p = height q /\ complete p = complete q.
Proof.
  intros Hb. repeat split.
  - exact (f_equal (fun b => b.1.1) Hb).
  - exact (f_equal (fun b => b.1.2) Hb).
  - exact (f_equal (fun b => b.2) Hb).
Qed.

Ltac by_cases f := intros; unfold f; branches; reflexivity.

Lemma horizontalMovement_body ks p : body (horizontalMovement ks p) = body p.
Proof. by_cases horizontalMovement. Qed.
Lemma jumping_body ks p : body (jumping ks p) = body p.
Proof. by_cases jumping. Qed.
Lemma applyGravity_body p : body (applyGravity p) = body p.
Proof. by_cases applyGravity. Qed.
Lemma updatePosition_body p : body (updatePosition p) = body p.
Proof. by_cases updatePosition. Qed.
Lemma keepInBounds_body p : body (keepInBounds p) = body p.
Proof. by_cases keepInBounds. Qed.
Lemma groundCollision_body p : body (groundCollision p) = body p.
Proof. by_cases groundCollision. Qed.

Lemma movePlayer_body (ks : gmap string bool) (p : Player) :
  body (movePlayer ks p) = body p.
Proof.
  unfold movePlayer, freeMove.
  rewrite groundCollision_body, keepInBounds_body, updatePosition_body,
    applyGravity_body, jumping_body, horizontalMovement_body.
  reflexivity.
Qed.

Lemma movePlayer_size (ks : gmap string bool) (p : Player) :
  width (movePlayer ks p) = width p /\ height (movePlayer ks p) = height p.
Proof.
  destruct (body_eq _ _ (movePlayer_body ks p)) as (Hw & Hh & _).
  split; assumption.
Qed.

Lemma movePlayer_complete (ks : gmap string bool) (p : Player) :
  complete (movePlayer ks p) = complete p.
Proof.
  apply (body_eq _ _ (movePlayer_body ks p)).
Qed.

(** After the keys are read, nothing in the move assigns [vx]. *)
Lemma jumping_vx ks p : vx (jumping ks p) = vx p.
Proof. by_cases jumping. Qed.
Lemma applyGravity_vx p : vx (applyGravity p) = vx p.
Proof. by_cases applyGravity. Qed.
Lemma updatePosition_vx p : vx (updatePosition p) = vx p.
Proof. by_cases updatePosition. Qed.
Lemma keepInBounds_vx p : vx (keepInBounds p) = vx p.
Proof. by_cases keepInBounds. Qed.
Lemma groundCollision_vx p : vx (groundCollision p) = vx p.
Proof. by_cases groundCollision. Qed.

Lemma movePlayer_vx (ks : gmap string bool) (p : Player) :
  vx (movePlayer ks p) = vx (horizontalMovement ks p).
Proof.
  unfold movePlayer, freeMove.
  rewrite groundCollision_vx, keepInBounds_vx, updatePosition_vx,
    applyGravity_vx, jumping_vx.
  reflexivity.
Qed.

Lemma horizontalMovement_vx (ks : gmap string bool) (p : Player) :
  vx (horizontalMovement ks p) =
    if pressed ks "ArrowLeft" then - MOVE_SPEED
    else if pressed ks "ArrowRight" then MOVE_SPEED else 0.
Proof. unfold horizontalMovement. branches; reflexivity. Qed.

(** The two clamps leave [x] between the walls whenever the player is not
    wider than the world. *)
Lemma keepInBounds_x (p : Player) :
  width p <= GAME_WIDTH ->
  0 <= x (keepInBounds p) /\ x (keepInBounds p) <= GAME_WIDTH - width p.
Proof.
  unfold keepInBounds, GAME_WIDTH. intros Hw.
  branches; qbool; split; lra.
Qed.

Lemma movePlayer_x (ks : gmap string bool) (p : Player) :
  width p <= GAME_WIDTH ->
  0 <= x (movePlayer ks p) /\ x (movePlayer ks p) <= GAME_WIDTH - width p.
Proof.
  intros Hw. unfold movePlayer, freeMove.
  set (q := updatePosition _).
  assert (Hq : width q = width p).
  { apply body_eq. subst q.
    rewrite updatePosition_body, applyGravity_body, jumping_body,
      horizontalMovement_body. reflexivity. }
  assert (Hx : x (groundCollision (keepInBounds q)) = x (keepInBounds q)).
  { unfold groundCollision. branches; reflexivity. }
  rewrite Hx, <- Hq. apply keepInBounds_x. rewrite Hq. exact Hw.
Qed.

(** ** The goal test *)

Lemma checkGoal_motion (p : Player) :
  x (checkGoal p).1 = x p /\ y (checkGoal p).1 = y p /\
  width (checkGoal p).1 = width p /\ height (checkGoal p).1 = height p /\
  vx (checkGoal p).1 = vx p /\ vy (checkGoal p).1 = vy p /\
  onGround (checkGoal p).1 = onGround p.
Proof. unfold checkGoal. branches; repeat split; reflexivity. Qed.

Lemma checkGoal_complete (p : Player) :
  complete (checkGoal p).1 = rectIntersect p goal || complete p.
Proof. unfold checkGoal. branches; reflexivity. Qed.

Lemma checkGoal_effects (p : Player) :
  (checkGoal p).2 =
    if rectIntersect p goal then [ShowEmailFormAfter 300] else [].
Proof. unfold checkGoal. branches; reflexivity. Qed.

(** ** Events *)

Lemma run_cons (e : Event) (es : list Event) (g : Game) :
  (run (e :: es) g).1 = (run es (handle e g).1).1.
Proof.
  simpl. destruct (handle e g) as [g1 fx1]. cbn [fst].
  destruct (run es g1) as [g2 fx2]. reflexivity.
Qed.

(** An invariant of the player that [update] keeps is kept by every
    sequence of events. *)
Lemma run_player_invariant (P : Player -> Prop) :
  (forall g, P (player g) -> P (player (update g).1)) ->
  forall es g, P (player g) -> P (player (run es g).1).
Proof.
  intros Hupd es. induction es as [|e es IH]; intros g Hg; [exact Hg|].
  rewrite run_cons. apply IH.
  destruct e; try exact Hg. apply Hupd, Hg.
Qed.

Lemma spawned_fields (p : Player) :
  x (spawned p) = 50 /\ y (spawned p) = 500 /\
  vx (spawned p) = 0 /\ vy (spawned p) = 0 /\ onGround (spawned p) = false /\
  body (spawned p) = body p.
Proof. repeat split; reflexivity. Qed.

(** A player of the source's width, put at the spawn point, is far to the
    left of the goal. *)
Lemma spawned_misses_goal (p : Player) :
  width p <= 690 -> rectIntersect (spawned p) goal = false.
Proof.
  intros Hw. apply rectIntersect_false. right. left.
  change (50 + width p <= 740). lra.
Qed.

(** * The claims *)

(** ** Collision test *)

(** C4. [rectIntersect] is symmetric; it is true exactly when the two
    rectangles overlap strictly on both axes; and when an edge of one only
    touches the facing edge of the other (equality on either axis) the
    answer is [false], as for [a] spanning x = 0..10 and [b] spanning
    x = 10..20. *)
Theorem rectIntersect_symmetric_strict
    {A B : Type} `{Rectangular A} `{Rectangular B} (a : A) (b : B) :
  rectIntersect a b = rectIntersect b a /\
  (rectIntersect a b = true <->
   x a < x b + width b /\ x a + width a > x b /\
   y a < y b + height b /\ y a + height a > y b) /\
  (x a + width a == x b \/ x b + width b == x a \/
   y a + height a == y b \/ y b + height b == y a ->
   rectIntersect a b = false).
Proof.
  split; [apply rectIntersect_sym|]. split.
  - rewrite rectIntersect_true. unfold Qgt. tauto.
  - intros Htouch. apply rectIntersect_false.
    destruct Htouch as [E|[E|[E|E]]]; rewrite E; auto using Qle_refl.
Qed.

Lemma rectIntersect_symmetric_strict_witness :
  rectIntersect (mkRect 0 0 10 10 "a") (mkRect 10 0 10 10 "b") = false.
Proof.
  destruct (rectIntersect_symmetric_strict
              (mkRect 0 0 10 10 "a") (mkRect 10 0 10 10 "b"))
    as (_ & _ & Htouch).
  apply Htouch. left. reflexivity.
Defined.

(** ** The guard *)

(** C8. While the game is paused, or once [player.complete] is set, a call
    of [update] returns the state it was given, whatever the keys: player,
    hazards and all, and it requests no effect. *)
Theorem update_paused_or_complete (g : Game) :
  gameRunning g = false \/ complete (player g) = true ->
  update g = (g, []).
Proof. intros Hg. apply update_inactive, active_false, Hg. Qed.

Lemma update_paused_or_complete_witness :
  update initial_game = (initial_game, []).
Proof. apply update_paused_or_complete. left. reflexivity. Defined.

(** ** Hazards and the player *)

(** C2. In a running step, when the player as moved by this step meets some
    hazard as moved by this step, the step leaves the player at exactly
    (50, 500) with [vx = 0], [vy = 0] and [onGround = false]. *)
Theorem hazard_hit_resets_player (g : Game) :
  gameRunning g = true -> complete (player g) = false ->
  Exists (fun hz =>
            rectIntersect (movePlayer (keys g) (player g)) (moveHazard hz) = true)
         (hazards g) ->
  let p' := player (update g).1 in
  x p' = 50 /\ y p' = 500 /\ vx p' = 0 /\ vy p' = 0 /\ onGround p' = false.
Proof.
  intros Hrun Hcomp Hhit p'. subst p'.
  rewrite update_active by (apply active_true; auto).
  cbn [fst player]. set (p := movePlayer _ _) in *.
  destruct (checkGoal_motion (forEachHazard (hazards g) p).1.2)
    as (-> & -> & _ & _ & -> & -> & ->).
  destruct (forEachHazard_cases (hazards g) p)
    as [_ [(Hnone & _)|(_ & -> & _)]].
  - exfalso. apply List.Exists_exists in Hhit. destruct Hhit as (hz & Hin & Hhz).
    rewrite List.Forall_forall in Hnone. specialize (Hnone hz Hin). congruence.
  - repeat split; reflexivity.
Qed.

Lemma hazard_hit_resets_player_witness :
  let p' := player (update overlapping_static_hazard).1 in
  x p' = 50 /\ y p' = 500 /\ vx p' = 0 /\ vy p' = 0 /\ onGround p' = false.
Proof.
  apply (hazard_hit_resets_player overlapping_static_hazard).
  - reflexivity.
  - reflexivity.
  - left. vm_compute. reflexivity.
Defined.

(** Overlap before the step is not what the loop tests: a player whose
    right edge is one pixel inside the static hazard walks out of it to the
    left and is not reset. *)
Example overlap_before_step_can_escape :
  let g := mkGame true (set_onGround true (set_x 361 initial_player))
                  initial_hazards {["ArrowLeft" := true]} in
  rectIntersect (player g) static_hazard = true /\
  x (player (update g).1) == 357 /\ (update g).2 = [].
Proof. vm_compute. repeat split; congruence. Qed.

(** ** Keys *)

(** C5. In a running step of a game that is not complete, the horizontal
    velocity the move works with is [-MOVE_SPEED] when the left key is down
    (also when the right key is down too), [MOVE_SPEED] when only the right
    key is down, and [0] when neither is; the step ends with that velocity
    unless a hazard reset the player, which leaves [vx = 0]. *)
Theorem update_horizontal_velocity (g : Game) :
  gameRunning g = true -> complete (player g) = false ->
  let v := vx (movePlayer (keys g) (player g)) in
  (pressed (keys g) "ArrowLeft" = true -> v = - MOVE_SPEED) /\
  (pressed (keys g) "ArrowLeft" = false ->
   pressed (keys g) "ArrowRight" = true -> v = MOVE_SPEED) /\
  (pressed (keys g) "ArrowLeft" = false ->
   pressed (keys g) "ArrowRight" = false -> v = 0) /\
  (pressed (keys g) "ArrowLeft" = true ->
   pressed (keys g) "ArrowRight" = true -> v = - MOVE_SPEED) /\
  (vx (player (update g).1) = v \/
   In (FlashPlayer 6 100) (update g).2 /\ vx (player (update g).1) = 0).
Proof.
  intros Hrun Hcomp v. subst v.
  rewrite movePlayer_vx, horizontalMovement_vx.
  repeat split.
  - intros ->. reflexivity.
  - intros -> ->. reflexivity.
  - intros -> ->. reflexivity.
  - intros -> _. reflexivity.
  - rewrite update_active by (apply active_true; auto).
    cbn [fst snd player]. set (p := movePlayer _ _).
    destruct (checkGoal_motion (forEachHazard (hazards g) p).1.2)
      as (_ & _ & _ & _ & -> & _).
    destruct (forEachHazard_player (hazards g) p) as [(-> & _)|(-> & Hfx)].
    + left. subst p. rewrite movePlayer_vx, horizontalMovement_vx. reflexivity.
    + right. split; [|reflexivity]. apply in_or_app. left. exact Hfx.
Qed.

Lemma update_horizontal_velocity_witness :
  let g := mkGame true initial_player initial_hazards
                  {["ArrowLeft" := true; "ArrowRight" := true]} in
  vx (movePlayer (keys g) (player g)) = - MOVE_SPEED /\
  vx (player (update g).1) = - MOVE_SPEED.
Proof.
  intros g.
  destruct (update_horizontal_velocity g eq_refl eq_refl)
    as (Hleft & _ & _ & Hboth & Hend).
  split.
  - apply Hboth; reflexivity.
  - destruct Hend as [->|[Hfx _]].
    + apply Hboth; reflexivity.
    + vm_compute in Hfx. destruct Hfx.
Defined.

(** ** Horizontal bounds *)

Lemma update_player_size (g : Game) :
  width (player (update g).1) = width (player g) /\
  height (player (update g).1) = height (player g).
Proof.
  destruct (active g) eqn:Hact.
  - rewrite update_active by exact Hact. cbn [fst player].
    generalize (movePlayer_size (keys g) (player g)).
    generalize (movePlayer (keys g) (player g)). intros p Hsize.
    destruct (checkGoal_motion (forEachHazard (hazards g) p).1.2)
      as (_ & _ & -> & -> & _).
    destruct (forEachHazard_player (hazards g) p) as [(-> & _)|(-> & _)];
      exact Hsize.
  - rewrite update_inactive by exact Hact. split; reflexivity.
Qed.

Lemma update_inBounds (g : Game) :
  width (player g) <= 750 ->
  inBounds (player g) -> inBounds (player (update g).1).
Proof.
  intros Hw Hin. unfold inBounds.
  destruct (update_player_size g) as [-> _].
  destruct (active g) eqn:Hact.
  - rewrite update_active by exact Hact. cbn [fst player].
    assert (Hmove : 0 <= x (movePlayer (keys g) (player g)) /\
                    x (movePlayer (keys g) (player g))
                    <= GAME_WIDTH - width (player g)).
    { apply movePlayer_x. unfold GAME_WIDTH. lra. }
    revert Hmove. generalize (movePlayer (keys g) (player g)). intros p Hmove.
    destruct (checkGoal_motion (forEachHazard (hazards g) p).1.2) as (Ex & _).
    destruct (forEachHazard_player (hazards g) p) as [(E & _)|(E & _)];
      rewrite Ex, E; clear Ex E.
    + exact Hmove.
    + change (0 <= 50 /\ 50 <= GAME_WIDTH - width (player g)).
      unfold GAME_WIDTH. lra.
  - rewrite update_inactive by exact Hact. exact Hin.
Qed.

(** C6. A player that is not too wide for the spawn point (50 + width <=
    800, as for the 40 of the source) and whose [x] is between 0 and
    [GAME_WIDTH - player.width] is still there after every sequence of key
    events, clicks on Begin and frames. *)
Theorem player_stays_in_bounds (es : list Event) (g : Game) :
  width (player g) <= 750 ->
  0 <= x (player g) /\ x (player g) <= GAME_WIDTH - width (player g) ->
  0 <= x (player (run es g).1) /\
  x (player (run es g).1) <= GAME_WIDTH - width (player (run es g).1).
Proof.
  intros Hw Hin.
  apply (run_player_invariant (fun p => width p <= 750 /\ inBounds p));
    [|split; assumption].
  intros g' [Hw' Hin']. split.
  - destruct (update_player_size g') as [-> _]. exact Hw'.
  - apply update_inBounds; assumption.
Qed.

Lemma player_stays_in_bounds_witness :
  let g := (run [Begin; KeyDown "ArrowLeft"; Frame; Frame] initial_game).1 in
  0 <= x (player g) /\ x (player g) <= GAME_WIDTH - width (player g).
Proof.
  apply (player_stays_in_bounds
           [Begin; KeyDown "ArrowLeft"; Frame; Frame] initial_game).
  - vm_compute. discriminate.
  - split; vm_compute; discriminate.
Defined.

(** ** The goal *)

Lemma update_complete_stays (g : Game) :
  complete (player g) = true -> complete (player (update g).1) = true.
Proof.
  intros Hc. rewrite update_inactive; [exact Hc|].
  apply active_false. right. exact Hc.
Qed.

(** C7. In a running step, when the player, as the move and the hazard loop
    of this step leave it, meets the goal rectangle (740, 480, 40, 80),
    [complete] is set (and the form is requested 300 ms later); and once
    [complete] is set it stays set through every sequence of key events,
    clicks on Begin and frames. *)
Theorem goal_sets_complete_for_good (g : Game) :
  (gameRunning g = true -> complete (player g) = false ->
   rectIntersect
     (forEachHazard (hazards g) (movePlayer (keys g) (player g))).1.2
     (mkRect 740 480 40 80 "#4CAF50") = true ->
   complete (player (update g).1) = true /\
   In (ShowEmailFormAfter 300) (update g).2) /\
  (complete (player g) = true ->
   forall es : list Event, complete (player (run es g).1) = true).
Proof.
  split.
  - intros Hrun Hcomp Hgoal.
    rewrite update_active by (apply active_true; auto).
    cbn [fst snd player]. change (mkRect _ _ _ _ _) with goal in Hgoal.
    rewrite checkGoal_complete, checkGoal_effects, Hgoal.
    split; [reflexivity|]. apply in_or_app. right. left. reflexivity.
  - intros Hcomp es. revert g Hcomp.
    apply (run_player_invariant (fun p => complete p = true)).
    apply update_complete_stays.
Qed.

Lemma goal_sets_complete_for_good_witness :
  (complete (player (update at_goal).1) = true /\
   In (ShowEmailFormAfter 300) (update at_goal).2) /\
  complete
    (player (run [KeyDown "ArrowLeft"; Frame; Frame] (update at_goal).1).1)
  = true.
Proof.
  split.
  - apply (goal_sets_complete_for_good at_goal).
    + reflexivity.
    + reflexivity.
    + vm_compute. reflexivity.
  - apply (goal_sets_complete_for_good (update at_goal).1).
    vm_compute. reflexivity.
Defined.

(** Standing in the goal with the source's level, whatever the keys: the
    step sets [complete]. *)
Lemma standing_in_goal_completes (ks : gmap string bool) :
  complete
    (player (update (mkGame true (set_onGround true (set_x 740 initial_player))
                            initial_hazards ks)).1) = true.
Proof.
  unfold update, movePlayer, freeMove, horizontalMovement, jumping.
  cbn [gameRunning player keys hazards negb orb].
  change (complete (set_onGround true (set_x 740 initial_player))) with false.
  cbn [orb].
  destruct (pressed ks "ArrowLeft"), (pressed ks "ArrowRight"),
    (pressed ks "ArrowUp"); vm_compute; reflexivity.
Qed.

(** ** Reset and completion *)

(** C10. A step that starts with [complete] false and in which a hazard
    resets the player (the flash is requested) ends with [complete] still
    false: the goal test runs on the player at the spawn point (50, 500),
    which for a player no wider than 690 (the source's is 40) does not meet
    the goal (740, 480, 40, 80). *)
Theorem reset_excludes_completion (g : Game) :
  complete (player g) = false ->
  width (player g) <= 690 ->
  In (FlashPlayer 6 100) (update g).2 ->
  complete (player (update g).1) = false /\
  x (player (update g).1) = 50 /\ y (player (update g).1) = 500 /\
  rectIntersect (player (update g).1) (mkRect 740 480 40 80 "#4CAF50") = false /\
  ~ In (ShowEmailFormAfter 300) (update g).2.
Proof.
  intros Hcomp Hw. destruct (active g) eqn:Hact.
  - rewrite update_active by exact Hact. cbn [fst snd player].
    generalize (movePlayer_complete (keys g) (player g)).
    destruct (movePlayer_size (keys g) (player g)) as [Hsize _]. revert Hsize.
    generalize (movePlayer (keys g) (player g)). intros p Hsize Hp Hfx.
    assert (Hmiss : rectIntersect (spawned p) goal = false).
    { apply spawned_misses_goal. rewrite Hsize. exact Hw. }
    destruct (forEachHazard_player (hazards g) p)
      as [(Eloop & Efx)|(Eloop & _)].
    + exfalso. rewrite Efx, checkGoal_effects in Hfx.
      destruct (rectIntersect _ goal); simpl in Hfx;
        intuition discriminate.
    + rewrite Eloop in *. clear Hfx.
      assert (Hsame : checkGoal (spawned p) = (spawned p, [])).
      { unfold checkGoal. rewrite Hmiss. reflexivity. }
      rewrite Hsame. cbn [fst snd].
      repeat split; try reflexivity.
      * change (complete p = false). congruence.
      * exact Hmiss.
      * rewrite app_nil_r. intros Hin.
        apply (forEachHazard_effects (hazards g) p) in Hin. discriminate.
  - rewrite update_inactive by exact Hact. intros [].
Qed.

Lemma reset_excludes_completion_witness :
  let g := overlapping_static_hazard in
  complete (player (update g).1) = false /\
  x (player (update g).1) = 50 /\ y (player (update g).1) = 500 /\
  rectIntersect (player (update g).1) (mkRect 740 480 40 80 "#4CAF50") = false /\
  ~ In (ShowEmailFormAfter 300) (update g).2.
Proof.
  apply (reset_excludes_completion overlapping_static_hazard).
  - reflexivity.
  - vm_compute. discriminate.
  - vm_compute. left. reflexivity.
Defined.

(** ** Walking on the ground *)

Lemma freeMove_sameKeys (ks ks' : gmap string bool) (p : Player) :
  sameKeys ks ks' -> freeMove ks p = freeMove ks' p.
Proof.
  intros (Hl & Hr & Hu). unfold freeMove, jumping, horizontalMovement.
  rewrite Hl, Hr, Hu. reflexivity.
Qed.

Lemma update_sameKeys (ks ks' : gmap string bool) (g : Game) :
  sameKeys ks ks' ->
  (update (withKeys ks g)).1 = withKeys ks (update (withKeys ks' g)).1.
Proof.
  intros Hks. unfold update, withKeys, movePlayer.
  cbn [gameRunning player hazards keys].
  rewrite (freeMove_sameKeys ks ks') by exact Hks.
  destruct (negb (gameRunning g) || complete (player g)); [reflexivity|].
  destruct (forEachHazard _ _) as [[hzs p] fx].
  destruct (checkGoal p) as [p' fx']. reflexivity.
Qed.

Lemma update_keys (g : Game) : keys (update g).1 = keys g.
Proof.
  unfold update. destruct (negb (gameRunning g) || complete (player g));
    [reflexivity|].
  destruct (forEachHazard _ _) as [[hzs p] fx].
  destruct (checkGoal p) as [p' fx']. reflexivity.
Qed.

Lemma withKeys_keys (g : Game) : withKeys (keys g) g = g.
Proof. destruct g. reflexivity. Qed.

Lemma frames_sameKeys (ks ks' : gmap string bool) (n : nat) (g : Game) :
  sameKeys ks ks' ->
  frames n (withKeys ks g) = withKeys ks (frames n (withKeys ks' g)).
Proof.
  intros Hks. revert g. induction n as [|n IH]; intros g; [reflexivity|].
  cbn [frames]. rewrite (update_sameKeys ks ks') by exact Hks.
  rewrite IH. do 2 f_equal.
  rewrite <- (update_keys (withKeys ks' g)) at 1. apply withKeys_keys.
Qed.

Lemma frames_succ (n : nat) (g : Game) :
  frames (S n) g = (update (frames n g)).1.
Proof.
  revert g. induction n as [|n IH]; intros g; [reflexivity|].
  change (frames (S (S n)) g) with (frames (S n) (update g).1).
  rewrite IH. reflexivity.
Qed.

(** C3. From the player at (50, 500) with [vx = 0] and [vy = 0], on the
    source's level with the game running, with the right key down and the
    left and up keys not: in each of the first ten frames gravity gives the
    player [vy = 0.5], which pushes its bottom edge below [ground.y = 560],
    so that the ground collision puts it back at [y = 560 - 60 = 500] with
    [vy = 0] and [onGround = true]; after [k] frames [x = 50 + 4 k], and
    after ten frames [x = 90], [y = 500], [vy = 0], [onGround = true]. *)
Theorem walk_right_ten_ticks (ks : gmap string bool) (onGround0 : bool) :
  pressed ks "ArrowRight" = true ->
  pressed ks "ArrowLeft" = false ->
  pressed ks "ArrowUp" = false ->
  let g0 := at_spawn onGround0 ks in
  (forall k : nat, (k < 10)%nat ->
     let q := freeMove ks (player (frames k g0)) in
     vy q == GRAVITY /\ y q + height q > y ground /\
     let p := player (frames (S k) g0) in
     x p == 50 + 4 * inject_Z (Z.of_nat (S k)) /\
     y p = 500 /\ vy p = 0 /\ onGround p = true) /\
  let p := player (frames 10 g0) in
  x p = 90 /\ y p = 500 /\ vy p = 0 /\ onGround p = true.
Proof.
  intros Hr Hl Hu g0.
  assert (Hks : sameKeys ks right_only) by (repeat split; assumption).
  assert (Hframes : forall k,
             player (frames k g0) = player (frames k (at_spawn onGround0 right_only))).
  { intros k. subst g0.
    change (at_spawn onGround0 ks)
      with (withKeys ks (at_spawn onGround0 right_only)).
    rewrite (frames_sameKeys ks right_only) by exact Hks.
    reflexivity. }
  split.
  - intros k Hk q. subst q. cbv zeta.
    rewrite (freeMove_sameKeys ks right_only) by exact Hks.
    rewrite !Hframes. clear - Hk.
    destruct onGround0;
      do 10 (destruct k as [|k]; [vm_compute; intuition congruence|]);
      exfalso; lia.
  - intros p. subst p. rewrite Hframes.
    destruct onGround0; vm_compute; repeat split; reflexivity.
Qed.

Lemma walk_right_ten_ticks_witness :
  let p := player (frames 10 (at_spawn false right_only)) in
  x p = 90 /\ y p = 500 /\ vy p = 0 /\ onGround p = true.
Proof.
  apply (walk_right_ten_ticks right_only false); reflexivity.
Defined.

(** ** Moving hazards *)

Lemma Osc_start (hz : Hazard) (o : Oscillation) :
  oscillation hz = Some o ->
  Osc hz (height hz) (rangeTop o) (rangeBottom o) (y hz) (dy o).
Proof.
  intros Ho. split; [reflexivity|]. exists o. repeat split; auto; reflexivity.
Qed.

(** One step of a moving hazard: it moves by its speed, and the speed
    changes sign exactly when the new position is at or beyond an end of
    the range. *)
Lemma moveHazard_Osc (hz : Hazard) (h rt rb yv d : Q) :
  Osc hz h rt rb yv d -> ~ d == 0 ->
  (yv + d <= rt \/ rb <= yv + d + h ->
   Osc (moveHazard hz) h rt rb (yv + d) (- d)) /\
  (rt < yv + d -> yv + d + h < rb ->
   Osc (moveHazard hz) h rt rb (yv + d) d).
Proof.
  intros (Hh & o & Ho & Hrt & Hrb & Hy & Hd) Hnz.
  unfold moveHazard. rewrite Ho.
  assert (Htruthy : truthy (dy o) = true).
  { apply truthy_nonzero. rewrite Hd. exact Hnz. }
  rewrite Htruthy. fields. rewrite Hh, Hrt, Hrb.
  destruct ((hazard_y hz + dy o <=? rt)
            || (hazard_y hz + dy o + h >=? rb)) eqn:Hturn.
  - split.
    + intros _. split; [exact Hh|]. unfold set_dy, set_hazard_y. fields.
      rewrite Ho. eexists. split; [reflexivity|]. fields.
      repeat split; auto; fields; lra.
    + intros Htop Hbot. exfalso.
      apply orb_true_iff in Hturn. fields.
      destruct Hturn as [Hturn|Hturn]; qbool; lra.
  - split.
    + intros Hout. exfalso. qbool. fields.
      destruct Hout; lra.
    + intros _ _. split; [exact Hh|]. unfold set_hazard_y. fields.
      exists o. repeat split; auto; fields; lra.
Qed.

(** A hazard without a descriptor, or with [dy] zero, does not move. *)
Lemma moveHazard_static (hz : Hazard) :
  (forall o, oscillation hz = Some o -> dy o == 0) -> moveHazard hz = hz.
Proof.
  intros Hstill. unfold moveHazard.
  destruct (oscillation hz) as [o|]; [|reflexivity].
  destruct (truthy (dy o)) eqn:Ht; [|reflexivity].
  qbool. exfalso. apply Ht, Hstill. reflexivity.
Qed.

Lemma Osc_eq (hz : Hazard) (h rt rb yv yv' d d' : Q) :
  yv == yv' -> d == d' -> Osc hz h rt rb yv d -> Osc hz h rt rb yv' d'.
Proof.
  intros Ey Ed (Hh & o & Ho & Hrt & Hrb & Hy & Hd).
  split; [exact Hh|]. exists o. repeat split; auto.
  - rewrite Hy. exact Ey.
  - rewrite Hd. exact Ed.
Qed.

(** Wherever the step leaves the speed, it moves the hazard by it. *)
Lemma moveHazard_Osc_y (hz : Hazard) (h rt rb yv d : Q) :
  Osc hz h rt rb yv d -> ~ d == 0 ->
  exists d', Osc (moveHazard hz) h rt rb (yv + d) d'.
Proof.
  intros Hosc Hnz.
  destruct (moveHazard_Osc hz h rt rb yv d Hosc Hnz) as [Hturn Hkeep].
  destruct (Qlt_le_dec rt (yv + d)) as [Htop|Htop];
    [destruct (Qlt_le_dec (yv + d + h) rb) as [Hbot|Hbot]|].
  - exists d. apply Hkeep; assumption.
  - exists (- d). apply Hturn. right. exact Hbot.
  - exists (- d). apply Hturn. left. exact Htop.
Qed.

Lemma Qnat_S (n : nat) : Qnat (S n) == Qnat n + 1.
Proof.
  unfold Qnat. rewrite Nat2Z.inj_succ, <- Z.add_1_r, inject_Z_plus.
  reflexivity.
Qed.

Lemma Qnat_nonneg (n : nat) : 0 <= Qnat n.
Proof.
  unfold Qnat. change 0 with (inject_Z 0). rewrite <- Zle_Qle. lia.
Qed.

Section Descent.
Variables (hz : Hazard) (h rt rb d : Q).
Hypothesis Hstart : Osc hz h rt rb rt d.
Hypothesis Hd : 0 < d.

(** Going down: as long as the bottom edge stays short of [rb], every
    step adds [d] and keeps the speed. *)
Lemma descent (k : nat) :
  (forall j : nat, (1 <= j <= k)%nat -> rt + Qnat j * d + h < rb) ->
  Osc (Nat.iter k moveHazard hz) h rt rb (rt + Qnat k * d) d.
Proof.
  induction k as [|k IH]; intros Hshort.
  - apply (Osc_eq hz h rt rb rt _ d d); [|reflexivity|exact Hstart].
    change (Qnat 0) with 0. ring.
  - cbn [Nat.iter].
    assert (Hk : Osc (Nat.iter k moveHazard hz) h rt rb (rt + Qnat k * d) d).
    { apply IH. intros j Hj. apply Hshort. lia. }
    pose proof (Hshort (S k) ltac:(lia)) as Hnext.
    pose proof (Qnat_S k) as HS. pose proof (Qnat_nonneg k) as Hk0.
    assert (Hkd : 0 <= Qnat k * d)
      by (apply Qmult_le_0_compat; [exact Hk0 | apply Qlt_le_weak, Hd]).
    assert (Hmul : Qnat (S k) * d == Qnat k * d + d) by (rewrite HS; ring).
    destruct (moveHazard_Osc _ h rt rb (rt + Qnat k * d) d Hk) as [_ Hkeep].
    { lra. }
    apply (Osc_eq _ h rt rb (rt + Qnat k * d + d) _ d d);
      [lra | reflexivity |].
    apply Hkeep; lra.
Qed.

(** Turning: the first step that brings the bottom edge to [rb] or past
    it flips the speed, and the step after it goes back up by [d]. *)
Lemma turn (n : nat) :
  (1 <= n)%nat ->
  (forall j : nat, (1 <= j < n)%nat -> rt + Qnat j * d + h < rb) ->
  rb <= rt + Qnat n * d + h ->
  Osc (Nat.iter n moveHazard hz) h rt rb (rt + Qnat n * d) (- d) /\
  exists d', Osc (Nat.iter (S n) moveHazard hz) h rt rb
                 (rt + Qnat (n - 1) * d) d'.
Proof.
  intros Hn Hshort Hreach.
  destruct n as [|m]; [lia|]. clear Hn.
  replace (S m - 1)%nat with m by lia.
  assert (Hm : Osc (Nat.iter m moveHazard hz) h rt rb (rt + Qnat m * d) d).
  { apply descent. intros j Hj. apply Hshort. lia. }
  pose proof (Qnat_S m) as HS.
  assert (Hmul : Qnat (S m) * d == Qnat m * d + d) by (rewrite HS; ring).
  assert (Hturned : Osc (Nat.iter (S m) moveHazard hz) h rt rb
                        (rt + Qnat (S m) * d) (- d)).
  { cbn [Nat.iter].
    destruct (moveHazard_Osc _ h rt rb (rt + Qnat m * d) d Hm) as [Hflip _].
    { lra. }
    apply (Osc_eq _ h rt rb (rt + Qnat m * d + d) _ (- d) (- d));
      [lra | reflexivity |].
    apply Hflip. right. lra. }
  split; [exact Hturned|].
  destruct (moveHazard_Osc_y _ h rt rb _ (- d) Hturned) as [d' Hup].
  { lra. }
  exists d'. cbn [Nat.iter].
  apply (Osc_eq _ h rt rb (rt + Qnat (S m) * d + - d) _ d' d');
    [lra | reflexivity | exact Hup].
Qed.
End Descent.

Lemma Osc_observed (hz : Hazard) (h rt rb yv d : Q) :
  Osc hz h rt rb yv d -> height hz = h /\ y hz == yv /\ speed hz == d.
Proof.
  intros (Hh & o & Ho & _ & _ & Hy & Hd). unfold speed. rewrite Ho. auto.
Qed.

Lemma turnTick_spec (hz : Hazard) (o : Oscillation) :
  0 < dy o ->
  let n := turnTick hz o in
  (1 <= n)%nat /\
  (forall j : nat, (1 <= j < n)%nat ->
     y hz + Qnat j * dy o + height hz < rangeBottom o) /\
  rangeBottom o <= y hz + Qnat n * dy o + height hz.
Proof.
  intros Hd n. subst n. unfold turnTick.
  set (q := (rangeBottom o - height hz - y hz) / dy o).
  assert (Hq : q * dy o == rangeBottom o - height hz - y hz).
  { unfold q. field. lra. }
  pose proof (Qle_ceiling q) as Hup. pose proof (Qceiling_lt q) as Hlow.
  set (c := Qceiling q) in *.
  split; [lia|]. split.
  - intros j [Hj1 Hjn].
    assert (Hjc : (Z.of_nat j <= c - 1)%Z) by lia.
    assert (Hjq : Qnat j < q).
    { apply Qle_lt_trans with (inject_Z (c - 1)); [|exact Hlow].
      unfold Qnat. rewrite <- Zle_Qle. exact Hjc. }
    apply (Qmult_lt_compat_r _ _ (dy o) Hd) in Hjq. lra.
  - assert (Hn : q <= Qnat (Z.to_nat (Z.max 1 c))).
    { apply Qle_trans with (inject_Z c); [exact Hup|].
      unfold Qnat. rewrite <- Zle_Qle. lia. }
    apply (Qmult_le_compat_r _ _ (dy o)) in Hn; [lra | lra].
Qed.

(** ** Hazards across frames *)

Lemma update_hazards (g : Game) :
  active g = true -> hazards (update g).1 = map moveHazard (hazards g).
Proof.
  intros Hact. rewrite update_active by exact Hact. cbn [fst hazards].
  apply forEachHazard_hazards.
Qed.

Lemma frames_hazards (k : nat) (g : Game) :
  (forall j : nat, (j < k)%nat -> active (frames j g) = true) ->
  hazards (frames k g) = map (Nat.iter k moveHazard) (hazards g).
Proof.
  induction k as [|k IH]; intros Hact.
  - cbn [frames Nat.iter]. symmetry. apply List.map_id.
  - rewrite frames_succ, update_hazards by (apply Hact; lia).
    rewrite IH by (intros j Hj; apply Hact; lia).
    rewrite List.map_map. reflexivity.
Qed.

(** With exact sums: a hazard at [y = rangeTop] with positive speed goes
    down by [dy] a frame until the frame [turnTick] brings its bottom edge
    to [rangeBottom], turns there and comes back up by [dy]. *)
Lemma turn_profile
    (g : Game) (i : nat) (hz : Hazard) (o : Oscillation) :
  nth_error (hazards g) i = Some hz ->
  oscillation hz = Some o ->
  0 < dy o ->
  y hz == rangeTop o ->
  let n := turnTick hz o in
  (forall k : nat, (k <= n)%nat -> active (frames k g) = true) ->
  (1 <= n)%nat /\
  forall k : nat, (k <= S n)%nat ->
    exists hz_k,
      nth_error (hazards (frames k g)) i = Some hz_k /\
      height hz_k = height hz /\
      ((k <= n)%nat -> y hz_k == rangeTop o + Qnat k * dy o) /\
      ((k < n)%nat -> speed hz_k == dy o) /\
      ((1 <= k < n)%nat -> y hz_k + height hz_k < rangeBottom o) /\
      (k = n ->
       rangeBottom o <= y hz_k + height hz_k /\ speed hz_k == - dy o) /\
      (k = S n -> y hz_k == rangeTop o + Qnat (n - 1) * dy o) /\
      rangeTop o <= y hz_k /\
      (rangeTop o + height hz <= rangeBottom o ->
       y hz_k + height hz_k <= rangeBottom o + dy o).
Proof.
  intros Hi Ho Hd Hy n Hact.
  destruct (turnTick_spec hz o Hd) as (Hn & Hshort0 & Hreach0).
  fold n in Hn, Hshort0, Hreach0.
  set (h := height hz) in *. set (rt := rangeTop o) in *.
  set (rb := rangeBottom o) in *. set (d := dy o) in *.
  assert (Hshort : forall j : nat, (1 <= j < n)%nat -> rt + Qnat j * d + h < rb).
  { intros j Hj. specialize (Hshort0 j Hj). lra. }
  assert (Hreach : rb <= rt + Qnat n * d + h) by lra.
  clear Hshort0 Hreach0.
  assert (Hstart : Osc hz h rt rb rt d).
  { apply (Osc_eq hz h rt rb (y hz) rt d d Hy); [reflexivity|].
    apply Osc_start, Ho. }
  (* the bottom edge before the turn, frame 0 included *)
  assert (Hbelow : rt + h <= rb ->
                   forall j : nat, (j < n)%nat -> rt + Qnat j * d + h <= rb).
  { intros Hfit j Hj. destruct j as [|j].
    - change (Qnat 0) with 0. lra.
    - apply Qlt_le_weak, Hshort. lia. }
  assert (Hpos : forall j : nat, 0 <= Qnat j * d).
  { intros j. apply Qmult_le_0_compat; [apply Qnat_nonneg | lra]. }
  destruct (turn hz h rt rb d Hstart Hd n Hn Hshort Hreach)
    as [Hturned [d' Hback]].
  assert (Hprev : Qnat n * d == Qnat (n - 1) * d + d).
  { replace n with (S (n - 1)) at 1 by lia. rewrite Qnat_S. ring. }
  split; [exact Hn|]. intros k Hk.
  exists (Nat.iter k moveHazard hz). split.
  { rewrite frames_hazards by (intros j Hj; apply Hact; lia).
    apply map_nth_error, Hi. }
  assert (Hcases : (k < n \/ k = n \/ k = S n)%nat) by lia.
  destruct Hcases as [Hlt|[->| ->]].
  - assert (Hk' : Osc (Nat.iter k moveHazard hz) h rt rb (rt + Qnat k * d) d).
    { apply descent; [exact Hstart | exact Hd |].
      intros j Hj. apply Hshort. lia. }
    destruct (Osc_observed _ _ _ _ _ _ Hk') as (Eh & Ey & Es).
    pose proof (Hpos k) as Hkd. rewrite Eh, Ey.
    repeat split; intros; try (exfalso; lia); try assumption; try lra.
    + apply Hshort. assumption.
    + pose proof (Hbelow ltac:(assumption) k Hlt). lra.
  - destruct (Osc_observed _ _ _ _ _ _ Hturned) as (Eh & Ey & Es).
    pose proof (Hpos (n - 1)%nat) as Hkd. rewrite Eh, Ey.
    repeat split; intros; try (exfalso; lia); try assumption; try lra.
    pose proof (Hbelow ltac:(assumption) (n - 1)%nat ltac:(lia)). lra.
  - destruct (Osc_observed _ _ _ _ _ _ Hback) as (Eh & Ey & Es).
    pose proof (Hpos (n - 1)%nat) as Hkd. rewrite Eh, Ey.
    repeat split; intros; try (exfalso; lia); try assumption; try lra.
    pose proof (Hbelow ltac:(assumption) (n - 1)%nat ltac:(lia)). lra.
Qed.

(** ** Hazards and their range *)

Lemma inRange_heading (hz : Hazard) : inRange hz -> heading hz.
Proof.
  intros Hin o Ho. destruct (Hin o Ho) as [Htop Hbot].
  pose proof (Qabs_nonneg (dy o)) as Habs.
  repeat split; intros; lra.
Qed.

Lemma heading_nearRange (hz : Hazard) : heading hz -> nearRange hz.
Proof.
  intros Hh o Ho. destruct (Hh o Ho) as (_ & Htop & Hbot & _). auto.
Qed.

Lemma moveHazard_heading (hz : Hazard) : heading hz -> heading (moveHazard hz).
Proof.
  intros Hh.
  destruct (oscillation hz) as [o|] eqn:Ho;
    [|rewrite moveHazard_static; [exact Hh | congruence]].
  destruct (Qeq_dec (dy o) 0) as [Hz|Hnz].
  { rewrite moveHazard_static; [exact Hh|].
    intros o' Ho'. congruence. }
  destruct (Hh o Ho) as (Hfit & Htop & Hbot & Hup & Hdown).
  destruct (moveHazard_Osc hz _ _ _ _ _ (Osc_start hz o Ho) Hnz)
    as [Hturn Hkeep].
  set (rt := rangeTop o) in *. set (rb := rangeBottom o) in *.
  set (h := height hz) in *. set (d := dy o) in *.
  assert (Hstep :
    exists d', Osc (moveHazard hz) h rt rb (y hz + d) d' /\
               ((d' == - d /\ (y hz + d <= rt \/ rb <= y hz + d + h)) \/
                (d' == d /\ rt < y hz + d /\ y hz + d + h < rb))).
  { destruct (Qlt_le_dec rt (y hz + d)) as [Ht|Ht];
      [destruct (Qlt_le_dec (y hz + d + h) rb) as [Hb|Hb]|].
    - exists d. split; [apply Hkeep; assumption|].
      right. repeat split; auto; reflexivity.
    - exists (- d). split; [apply Hturn; auto|].
      left. split; auto; reflexivity.
    - exists (- d). split; [apply Hturn; auto|].
      left. split; auto; reflexivity. }
  destruct Hstep as (d' & (Eh & o' & Ho' & Ert & Erb & Ey & Ed) & Hd').
  intros o'' Ho''. rewrite Ho' in Ho''. injection Ho'' as <-.
  rewrite Eh, Ert, Erb, Ey.
  assert (Habs : Qabs (dy o') == Qabs d).
  { rewrite Ed. destruct Hd' as [[-> _]|[-> _]];
      [apply Qabs_opp | reflexivity]. }
  rewrite Habs, Ed. clear Habs Ed Ey Ho' Ert Erb o'.
  revert Htop Hbot. apply (Qabs_case d); intros Hsign Htop Hbot;
    (destruct Hd' as [[-> Hout]|[-> [Hin1 Hin2]]];
     [destruct Hout|]; repeat split; intros; lra).
Qed.

Lemma iter_heading (m : nat) (hz : Hazard) :
  heading hz -> heading (Nat.iter m moveHazard hz).
Proof.
  intros Hh. induction m as [|m IH]; [exact Hh|].
  cbn [Nat.iter]. apply moveHazard_heading, IH.
Qed.

(** Whatever the host does, the hazards move in step: each has been moved
    as many times as there were frames that passed the guard. *)
Lemma run_hazards (es : list Event) (g : Game) :
  exists m : nat,
    hazards (run es g).1 = map (Nat.iter m moveHazard) (hazards g).
Proof.
  revert g. induction es as [|e es IH]; intros g.
  - exists 0%nat. symmetry. apply List.map_id.
  - rewrite run_cons. destruct (IH (handle e g).1) as [m Hm]. rewrite Hm.
    destruct e; try (exists m; reflexivity).
    cbn [handle]. destruct (active g) eqn:Hact.
    + exists (S m). rewrite update_hazards by exact Hact.
      rewrite List.map_map. apply List.map_ext. intros hz.
      symmetry. apply Nat.iter_succ_r.
    + exists m. rewrite update_inactive by exact Hact. reflexivity.
Qed.

(** With exact sums: a hazard that starts within its range stays within
    one step of it. *)
Lemma run_nearRange
    (es : list Event) (g : Game) (i : nat) (hz : Hazard) :
  nth_error (hazards g) i = Some hz ->
  inRange hz ->
  exists hz',
    nth_error (hazards (run es g).1) i = Some hz' /\ nearRange hz'.
Proof.
  intros Hi Hstart. destruct (run_hazards es g) as [m Hm].
  exists (Nat.iter m moveHazard hz). split.
  - rewrite Hm. apply map_nth_error, Hi.
  - apply heading_nearRange, iter_heading, inRange_heading, Hstart.
Qed.

(** C1 fails as stated. A hazard within its range steps past
    [rangeBottom] before it turns: from [y = 489] the first frame takes the
    bottom edge to 540.2, beyond 540. And the moving hazard of the source's
    level is never within its range: its bottom edge starts at 560, and
    after the first running frame it is at 561.2. *)
Lemma hazard_leaves_range :
  (let g := mkGame true initial_player [hazard_near_bottom] ∅ in
   Forall inRange (hazards g) /\
   exists hz' o',
     hazards (update g).1 = [hz'] /\ oscillation hz' = Some o' /\
     rangeBottom o' < y hz' + height hz') /\
  (let g := (run [Begin; Frame] initial_game).1 in
   exists hz' o',
     nth_error (hazards g) 1 = Some hz' /\ oscillation hz' = Some o' /\
     rangeBottom o' < y hz' + height hz').
Proof.
  split.
  - split.
    + constructor; [|constructor].
      intros o Ho. injection Ho as <-.
      split; vm_compute; discriminate.
    + eexists. eexists. split; [vm_compute; reflexivity|].
      split; [reflexivity|]. vm_compute. reflexivity.
  - eexists. eexists. split; [vm_compute; reflexivity|].
    split; [reflexivity|]. vm_compute. reflexivity.
Qed.

(** * Further properties *)

(** ** Runs of events *)

Lemma run_effects_cons (e : Event) (es : list Event) (g : Game) :
  (run (e :: es) g).2 = (handle e g).2 ++ (run es (handle e g).1).2.
Proof.
  simpl. destruct (handle e g) as [g1 fx1]. cbn [fst snd].
  destruct (run es g1) as [g2 fx2]. reflexivity.
Qed.

Lemma update_gameRunning (g : Game) :
  gameRunning (update g).1 = gameRunning g.
Proof.
  unfold update. destruct (negb (gameRunning g) || complete (player g));
    [reflexivity|].
  destruct (forEachHazard _ _) as [[hzs p] fx].
  destruct (checkGoal p) as [p' fx']. reflexivity.
Qed.

Lemma pressed_insert (ks : gmap string bool) (c code : string) (b : bool) :
  pressed (<[c := b]> ks) code = if String.eqb c code then b else pressed ks code.
Proof.
  unfold pressed. destruct (String.eqb_spec c code) as [->|Hne].
  - rewrite lookup_insert_eq. reflexivity.
  - rewrite lookup_insert_ne by exact Hne. reflexivity.
Qed.

(** X1. The key state [update] reads is that of the last key event for
    that code: a [keydown] sets it, a [keyup] clears it, events for other
    codes, clicks on Begin and frames leave it alone. *)
Theorem keys_follow_last_event (es : list Event) (g : Game) (code : string) :
  pressed (keys (run es g).1) code = keyAfter es code (pressed (keys g) code).
Proof.
  revert g. induction es as [|e es IH]; intros g; [reflexivity|].
  rewrite run_cons, IH. destruct e; cbn [handle fst keys keyAfter].
  - rewrite pressed_insert. reflexivity.
  - rewrite pressed_insert. reflexivity.
  - reflexivity.
  - rewrite update_keys. reflexivity.
Qed.

(** X2. Until Begin is clicked nothing moves: from a paused game, key
    events and frames leave the player and the hazards as they are, request
    no effect, and the game stays paused. *)
Theorem paused_until_begin (es : list Event) (g : Game) :
  gameRunning g = false ->
  Forall (fun e => e <> Begin) es ->
  player (run es g).1 = player g /\ hazards (run es g).1 = hazards g /\
  (run es g).2 = [] /\ gameRunning (run es g).1 = false.
Proof.
  intros Hpaused Hes. revert g Hpaused.
  induction Hes as [|e es He _ IH]; intros g Hpaused; [auto|].
  rewrite run_cons, run_effects_cons.
  assert (Hstep : player (handle e g).1 = player g /\
                  hazards (handle e g).1 = hazards g /\
                  (handle e g).2 = [] /\ gameRunning (handle e g).1 = false).
  { destruct e; try contradiction; cbn [handle fst snd]; auto.
    rewrite update_inactive by (apply active_false; auto). auto. }
  destruct Hstep as (Hp & Hh & Hfx & Hr).
  destruct (IH _ Hr) as (-> & -> & -> & ->). rewrite Hfx. auto.
Qed.

Lemma paused_until_begin_witness :
  let es := [KeyDown "ArrowRight"; Frame; KeyDown "ArrowUp"; Frame; Frame] in
  player (run es initial_game).1 = player initial_game /\
  hazards (run es initial_game).1 = hazards initial_game /\
  (run es initial_game).2 = [] /\ gameRunning (run es initial_game).1 = false.
Proof.
  apply (paused_until_begin
           [KeyDown "ArrowRight"; Frame; KeyDown "ArrowUp"; Frame; Frame]
           initial_game).
  - reflexivity.
  - repeat (constructor; [discriminate|]). constructor.
Defined.

(** X3. There is no pause: once the game runs, it runs after every sequence
    of events. *)
Theorem running_stays_running (es : list Event) (g : Game) :
  gameRunning g = true -> gameRunning (run es g).1 = true.
Proof.
  revert g. induction es as [|e es IH]; intros g Hrun; [exact Hrun|].
  rewrite run_cons. apply IH.
  destruct e; cbn [handle fst gameRunning startGame]; auto.
  rewrite update_gameRunning. exact Hrun.
Qed.

Lemma running_stays_running_witness :
  gameRunning
    (run [Frame; KeyDown "ArrowUp"; Frame] (startGame initial_game)).1 = true.
Proof.
  apply (running_stays_running [Frame; KeyDown "ArrowUp"; Frame]
                               (startGame initial_game)).
  reflexivity.
Defined.

(** X4. After the goal the world is frozen: once [complete] is set, no
    sequence of key events, clicks on Begin and frames changes the player
    or a hazard or requests an effect. *)
Theorem frozen_after_goal (es : list Event) (g : Game) :
  complete (player g) = true ->
  player (run es g).1 = player g /\ hazards (run es g).1 = hazards g /\
  (run es g).2 = [].
Proof.
  revert g. induction es as [|e es IH]; intros g Hc; [auto|].
  rewrite run_cons, run_effects_cons.
  assert (Hstep : player (handle e g).1 = player g /\
                  hazards (handle e g).1 = hazards g /\ (handle e g).2 = []).
  { destruct e; cbn [handle fst snd]; auto.
    rewrite update_inactive by (apply active_false; auto). auto. }
  destruct Hstep as (Hp & Hh & Hfx).
  destruct (IH (handle e g).1) as (-> & -> & ->); [congruence|].
  rewrite Hfx. auto.
Qed.

Lemma frozen_after_goal_witness :
  let g := (update at_goal).1 in
  let es := [KeyDown "ArrowLeft"; Begin; Frame; Frame] in
  player (run es g).1 = player g /\ hazards (run es g).1 = hazards g /\
  (run es g).2 = [].
Proof.
  apply (frozen_after_goal [KeyDown "ArrowLeft"; Begin; Frame; Frame]
                           (update at_goal).1).
  vm_compute. reflexivity.
Defined.

(** ** Requests for timers *)

Lemma formRequests_app (a b : list Effect) :
  formRequests (a ++ b) = (formRequests a + formRequests b)%nat.
Proof. unfold formRequests. rewrite List.filter_app, length_app. reflexivity. Qed.

Lemma flashRequests_app (a b : list Effect) :
  flashRequests (a ++ b) = (flashRequests a + flashRequests b)%nat.
Proof. unfold flashRequests. rewrite List.filter_app, length_app. reflexivity. Qed.

Lemma forEachHazard_requests (hzs : list Hazard) (p : Player) :
  formRequests (forEachHazard hzs p).2 = 0%nat /\
  (flashRequests (forEachHazard hzs p).2 <= length hzs)%nat.
Proof.
  revert p. induction hzs as [|hz rest IH]; intros p; simpl; [split; auto|].
  destruct (rectIntersect p (moveHazard hz)); cbn [resetPlayer fst snd].
  - specialize (IH (spawned p)). unfold spawned, resetPlayer in IH.
    cbn [fst] in IH.
    destruct (forEachHazard rest _) as [[rest' p'] fx']. cbn [fst snd app] in *.
    destruct IH as [IH1 IH2]. split; [exact IH1|].
    unfold flashRequests in *. cbn. lia.
  - specialize (IH p).
    destruct (forEachHazard rest p) as [[rest' p'] fx']. cbn [fst snd app] in *.
    destruct IH as [IH1 IH2]. split; [exact IH1 | lia].
Qed.

Lemma checkGoal_requests (p : Player) :
  flashRequests (checkGoal p).2 = 0%nat /\
  formRequests (checkGoal p).2 = if rectIntersect p goal then 1%nat else 0%nat.
Proof.
  rewrite checkGoal_effects. destruct (rectIntersect p goal); split; reflexivity.
Qed.

Lemma update_requests (g : Game) :
  (flashRequests (update g).2 <= length (hazards g))%nat /\
  (complete (player g) = false ->
   formRequests (update g).2
   = if complete (player (update g).1) then 1%nat else 0%nat).
Proof.
  destruct (active g) eqn:Hact.
  - rewrite update_active by exact Hact. cbn [fst snd player].
    generalize (movePlayer_complete (keys g) (player g)).
    generalize (movePlayer (keys g) (player g)). intros p Hp.
    rewrite flashRequests_app, formRequests_app.
    destruct (forEachHazard_requests (hazards g) p) as [-> Hflash].
    destruct (checkGoal_requests (forEachHazard (hazards g) p).1.2)
      as [-> ->].
    split; [lia|]. intros Hc. rewrite checkGoal_complete.
    assert (Hloop : complete (forEachHazard (hazards g) p).1.2 = false).
    { destruct (forEachHazard_player (hazards g) p) as [(-> & _)|(-> & _)];
        [|change (complete p = false)]; congruence. }
    rewrite Hloop, orb_false_r. reflexivity.
  - rewrite update_inactive by exact Hact. split; [cbn; lia|].
    intros Hc. cbn [fst snd]. rewrite Hc. reflexivity.
Qed.

(** X5. The e-mail form is asked for once, when the goal is reached: over
    any sequence of events from a game that is not complete, the number of
    [showEmailForm] timeouts requested is one if the run ends complete and
    zero if it does not. *)
Theorem form_requested_once (es : list Event) (g : Game) :
  complete (player g) = false ->
  formRequests (run es g).2
  = if complete (player (run es g).1) then 1%nat else 0%nat.
Proof.
  revert g. induction es as [|e es IH]; intros g Hc.
  - cbn [run fst snd]. rewrite Hc. reflexivity.
  - rewrite run_cons, run_effects_cons, formRequests_app.
    destruct e; cbn [handle fst snd]; try (apply IH; exact Hc).
    destruct (update_requests g) as [_ Hform]. rewrite (Hform Hc).
    destruct (complete (player (update g).1)) eqn:Hc'.
    + destruct (frozen_after_goal es (update g).1 Hc') as (-> & _ & ->).
      rewrite Hc'. reflexivity.
    + apply IH. exact Hc'.
Qed.

Lemma form_requested_once_witness :
  formRequests (run [Frame; KeyDown "ArrowLeft"; Frame; Frame] at_goal).2
  = 1%nat.
Proof.
  rewrite (form_requested_once
             [Frame; KeyDown "ArrowLeft"; Frame; Frame] at_goal eq_refl).
  vm_compute. reflexivity.
Defined.

(** X6. A frame starts at most one flash per hazard: over any sequence of
    events the number of flashes requested is at most the number of frames
    times the number of hazards. *)
Theorem flashes_bounded_by_frames (es : list Event) (g : Game) :
  (flashRequests (run es g).2
   <= length (List.filter isFrame es) * length (hazards g))%nat.
Proof.
  revert g. induction es as [|e es IH]; intros g; [cbn; lia|].
  rewrite run_effects_cons, flashRequests_app.
  specialize (IH (handle e g).1).
  destruct e; cbn [handle fst snd List.filter isFrame hazards] in *;
    try (cbn; exact IH).
  destruct (update_requests g) as [Hflash _].
  assert (Hlen : length (hazards (update g).1) = length (hazards g)).
  { destruct (active g) eqn:Hact.
    - rewrite update_hazards by exact Hact. apply length_map.
    - rewrite update_inactive by exact Hact. reflexivity. }
  rewrite Hlen in IH. cbn [length]. lia.
Qed.

(** ** What a hazard keeps *)

(** One step changes nothing of a hazard but [y] and the sign of [dy]. *)
Lemma moveHazard_keeps (hz : Hazard) :
  x (moveHazard hz) = x hz /\ width (moveHazard hz) = width hz /\
  height (moveHazard hz) = height hz /\
  hazard_color (moveHazard hz) = hazard_color hz /\
  match oscillation hz, oscillation (moveHazard hz) with
  | None, None => True
  | Some o, Some o' =>
      rangeTop o' = rangeTop o /\ rangeBottom o' = rangeBottom o /\
      (dy o' = dy o \/ dy o' = dy o * -1)
  | _, _ => False
  end.
Proof.
  unfold moveHazard. destruct (oscillation hz) as [o|] eqn:Ho.
  - destruct (truthy (dy o)); [|rewrite Ho; repeat split; auto].
    cbn [x y width height Hazard_Rectangular hazard_x hazard_y hazard_width
         hazard_height hazard_color oscillation set_hazard_y].
    destruct (_ || _);
      cbn [x y width height Hazard_Rectangular hazard_x hazard_y hazard_width
           hazard_height hazard_color oscillation set_hazard_y set_dy];
      rewrite Ho; cbn [rangeTop rangeBottom dy]; repeat split; auto.
  - rewrite Ho. repeat split; auto.
Qed.

Lemma Qabs_flip (d d' : Q) : d' = d \/ d' = d * -1 -> Qabs d' == Qabs d.
Proof.
  intros [->| ->]; [reflexivity|].
  assert (E : d * -1 == - d) by ring. rewrite E. apply Qabs_opp.
Qed.

Lemma iter_moveHazard_keeps (m : nat) (hz : Hazard) :
  let hz' := Nat.iter m moveHazard hz in
  x hz' = x hz /\ width hz' = width hz /\ height hz' = height hz /\
  hazard_color hz' = hazard_color hz /\
  match oscillation hz, oscillation hz' with
  | None, None => True
  | Some o, Some o' =>
      rangeTop o' = rangeTop o /\ rangeBottom o' = rangeBottom o /\
      Qabs (dy o') == Qabs (dy o)
  | _, _ => False
  end.
Proof.
  cbv zeta. induction m as [|m IH].
  - change (Nat.iter 0 moveHazard hz) with hz.
    repeat split. destruct (oscillation hz); [|exact I].
    repeat split; reflexivity.
  - change (Nat.iter (S m) moveHazard hz)
      with (moveHazard (Nat.iter m moveHazard hz)).
    destruct IH as (Ex & Ew & Eh & Ec & Eo).
    destruct (moveHazard_keeps (Nat.iter m moveHazard hz))
      as (Ex' & Ew' & Eh' & Ec' & Eo').
    rewrite Ex', Ew', Eh', Ec'. repeat split; try assumption.
    destruct (oscillation hz) as [o|],
             (oscillation (Nat.iter m moveHazard hz)) as [o1|],
             (oscillation (moveHazard (Nat.iter m moveHazard hz))) as [o2|];
      try contradiction; try exact I.
    destruct Eo as (Et & Eb & Ed), Eo' as (Et' & Eb' & Ed').
    repeat split; try congruence.
    rewrite (Qabs_flip _ _ Ed'). exact Ed.
Qed.

(** X7. Hazards only move up and down: over any sequence of events the
    list keeps its length, and each hazard keeps its [x], its size and its
    colour; a hazard with a descriptor keeps its range and the magnitude of
    its speed, and a hazard without one still has none. *)
Theorem hazards_keep_shape
    (es : list Event) (g : Game) (i : nat) (hz : Hazard) :
  length (hazards (run es g).1) = length (hazards g) /\
  (nth_error (hazards g) i = Some hz ->
   exists hz',
     nth_error (hazards (run es g).1) i = Some hz' /\
     x hz' = x hz /\ width hz' = width hz /\ height hz' = height hz /\
     hazard_color hz' = hazard_color hz /\
     match oscillation hz, oscillation hz' with
     | None, None => True
     | Some o, Some o' =>
         rangeTop o' = rangeTop o /\ rangeBottom o' = rangeBottom o /\
         Qabs (dy o') == Qabs (dy o)
     | _, _ => False
     end).
Proof.
  destruct (run_hazards es g) as [m Hm]. rewrite Hm. split.
  - apply length_map.
  - intros Hi. exists (Nat.iter m moveHazard hz).
    split; [apply map_nth_error, Hi|]. apply iter_moveHazard_keeps.
Qed.

Lemma hazards_keep_shape_witness :
  exists hz',
    nth_error (hazards (run [Begin; Frame; Frame; Frame] initial_game).1) 1
    = Some hz' /\
    x hz' = 550 /\ width hz' = 50 /\ height hz' = 50 /\
    hazard_color hz' = "#8A2BE2" /\
    match oscillation hz' with
    | Some o' => rangeTop o' = 480 /\ rangeBottom o' = 540 /\
                 Qabs (dy o') == Qabs 1.2
    | None => False
    end.
Proof.
  destruct (hazards_keep_shape [Begin; Frame; Frame; Frame] initial_game
                               1 moving_hazard) as [_ Hkeep].
  destruct (Hkeep eq_refl) as (hz' & Hnth & Hrest).
  exists hz'. split; [exact Hnth | exact Hrest].
Defined.

(** X8. A hazard that does not move stays exactly as it is: over any
    sequence of events a hazard without a descriptor, or with [dy] zero, is
    the same object state at the end. *)
Theorem static_hazard_unchanged
    (es : list Event) (g : Game) (i : nat) (hz : Hazard) :
  nth_error (hazards g) i = Some hz ->
  (forall o, oscillation hz = Some o -> dy o == 0) ->
  nth_error (hazards (run es g).1) i = Some hz.
Proof.
  intros Hi Hstill. destruct (run_hazards es g) as [m ->].
  rewrite (map_nth_error _ _ _ Hi). f_equal.
  induction m as [|m IH]; [reflexivity|].
  change (Nat.iter (S m) moveHazard hz)
    with (moveHazard (Nat.iter m moveHazard hz)).
  rewrite IH. apply moveHazard_static, Hstill.
Qed.

Lemma static_hazard_unchanged_witness :
  nth_error (hazards (run [Begin; Frame; Frame] initial_game).1) 0
  = Some static_hazard.
Proof.
  apply (static_hazard_unchanged [Begin; Frame; Frame] initial_game
                                 0 static_hazard).
  - reflexivity.
  - intros o Ho. discriminate Ho.
Defined.



(** ** The vertical motion of the player *)

Lemma horizontalMovement_vertical ks p :
  y (horizontalMovement ks p) = y p /\ vy (horizontalMovement ks p) = vy p /\
  onGround (horizontalMovement ks p) = onGround p.
Proof. unfold horizontalMovement. branches; auto. Qed.

Lemma keepInBounds_vertical p :
  y (keepInBounds p) = y p /\ vy (keepInBounds p) = vy p /\
  onGround (keepInBounds p) = onGround p.
Proof. unfold keepInBounds. branches; auto. Qed.

(** The move before the ground test: a jump replaces the speed, gravity
    adds to it, and the position follows. *)
Lemma freeMove_vertical (ks : gmap string bool) (p : Player) :
  let jump := pressed ks "ArrowUp" && onGround p in
  let v := (if jump then - JUMP_SPEED else vy p) + GRAVITY in
  vy (freeMove ks p) = v /\ y (freeMove ks p) = y p + v /\
  onGround (freeMove ks p) = (if jump then false else onGround p) /\
  height (freeMove ks p) = height p.
Proof.
  cbv zeta. unfold freeMove.
  destruct (keepInBounds_vertical
              (updatePosition
                 (applyGravity (jumping ks (horizontalMovement ks p)))))
    as (-> & -> & ->).
  destruct (body_eq _ _ (keepInBounds_body
              (updatePosition
                 (applyGravity (jumping ks (horizontalMovement ks p))))))
    as (_ & -> & _).
  destruct (horizontalMovement_vertical ks p) as (Ey & Ev & Eg).
  destruct (body_eq _ _ (horizontalMovement_body ks p)) as (_ & Eh & _).
  revert Ey Ev Eg Eh. generalize (horizontalMovement ks p).
  intros q Ey Ev Eg Eh. rewrite <- Ey, <- Ev, <- Eg, <- Eh.
  unfold updatePosition, applyGravity, jumping. branches; auto.
Qed.

Lemma groundCollision_floor (q : Player) :
  y (groundCollision q) + height (groundCollision q) <= y ground.
Proof.
  unfold groundCollision. branches; qbool; lra.
Qed.

Lemma groundCollision_height (q : Player) :
  height (groundCollision q) = height q.
Proof. apply (body_eq _ _ (groundCollision_body q)). Qed.

(** A player property that the move establishes or keeps, that the spawn
    point has and that only depends on the motion of the player, holds
    after [update]. *)
Lemma update_player_cases (P : Player -> Prop) (g : Game) :
  P (player g) ->
  P (movePlayer (keys g) (player g)) ->
  (forall p, P p -> P (spawned p)) ->
  (forall p, P p -> P (checkGoal p).1) ->
  P (player (update g).1).
Proof.
  intros Hg Hmove Hspawn Hgoal. destruct (active g) eqn:Hact.
  - rewrite update_active by exact Hact. cbn [fst player].
    revert Hmove. generalize (movePlayer (keys g) (player g)). intros p Hp.
    apply Hgoal.
    destruct (forEachHazard_player (hazards g) p) as [(-> & _)|(-> & _)];
      auto.
  - rewrite update_inactive by exact Hact. exact Hg.
Qed.

(** X10. The player never sinks into the ground: a player no taller than
    60 whose bottom edge is at or above [ground.y = 560] still has it there
    after every sequence of events. *)
Theorem player_stays_above_ground (es : list Event) (g : Game) :
  height (player g) <= 60 ->
  y (player g) + height (player g) <= y ground ->
  y (player (run es g).1) + height (player (run es g).1) <= y ground.
Proof.
  intros Hh Hy.
  apply (run_player_invariant
           (fun p => height p <= 60 /\ y p + height p <= y ground));
    [|split; assumption].
  clear. intros g [Hh Hy]. apply update_player_cases.
  - split; assumption.
  - unfold movePlayer. split; [|apply groundCollision_floor].
    rewrite groundCollision_height.
    destruct (freeMove_vertical (keys g) (player g)) as (_ & _ & _ & ->).
    exact Hh.
  - intros p [Hp _].
    change (height p <= 60 /\ 500 + height p <= 560). lra.
  - intros p Hp. destruct (checkGoal_motion p) as (_ & -> & _ & -> & _).
    exact Hp.
Qed.

Lemma player_stays_above_ground_witness :
  let es := [Begin; KeyDown "ArrowUp"; Frame; Frame; KeyUp "ArrowUp"; Frame] in
  y (player (run es initial_game).1) + height (player (run es initial_game).1)
  <= y ground.
Proof.
  apply (player_stays_above_ground
           [Begin; KeyDown "ArrowUp"; Frame; Frame; KeyUp "ArrowUp"; Frame]
           initial_game).
  - vm_compute. discriminate.
  - vm_compute. discriminate.
Defined.

(** For a speed that is a multiple of one half, [vy^2 + vy/2 >= 0]. *)
Lemma half_steps_nonneg (m : Z) :
  0 <= inject_Z m * (1 # 2) * (inject_Z m * (1 # 2))
       + inject_Z m * (1 # 2) * (1 # 2).
Proof.
  assert (E : inject_Z m * (1 # 2) * (inject_Z m * (1 # 2))
              + inject_Z m * (1 # 2) * (1 # 2)
              == inject_Z (m * (m + 1)) * (1 # 4)).
  { rewrite inject_Z_mult, inject_Z_plus. change (inject_Z 1) with 1. ring. }
  rewrite E. apply Qmult_le_0_compat; [|discriminate].
  change 0 with (inject_Z 0). rewrite <- Zle_Qle. nia.
Qed.

Lemma inFlight_height_bound (p : Player) : inFlight p -> 362 <= y p.
Proof.
  intros (_ & _ & [m Hm] & He & _). unfold energy in He.
  pose proof (half_steps_nonneg m) as Hpos.
  rewrite <- Hm in Hpos. lra.
Qed.

Lemma movePlayer_inFlight (ks : gmap string bool) (p : Player) :
  inFlight p -> inFlight (movePlayer ks p).
Proof.
  intros (Hh & Hy & [m Hm] & He & Hg). unfold movePlayer.
  destruct (freeMove_vertical ks p) as (Ev & Ey & Eg & Eh).
  revert Ev Ey Eg Eh. generalize (freeMove ks p). intros q Ev Ey Eg Eh.
  unfold inFlight, energy, groundCollision.
  destruct (y q + height q >? y ground) eqn:Hland; fields; qbool.
  - (* landing *)
    change (rect_y ground) with 560 in *. rewrite Eh in *.
    split; [exact Hh|]. split; [lra|].
    split; [exists 0%Z; reflexivity|]. split; [lra|].
    intros _. split; lra.
  - change (rect_y ground) with 560 in *. rewrite Eh in *.
    split; [exact Hh|].
    destruct (pressed ks "ArrowUp" && onGround p) eqn:Hjump.
    + (* a jump from the ground *)
      apply andb_true_iff in Hjump. destruct Hjump as [_ Hon].
      destruct (Hg Hon) as [Hy0 Hv0].
      rewrite Ev, Ey in *. unfold JUMP_SPEED, GRAVITY in *.
      split; [lra|]. split; [exists (-23)%Z; reflexivity|]. split.
      * rewrite Hy0. vm_compute. discriminate.
      * rewrite Eg. discriminate.
    + (* free flight *)
      rewrite Ev, Ey in *. unfold GRAVITY in *. unfold energy in He. fields.
      split; [lra|]. split; [|split].
      * exists (m + 1)%Z. rewrite inject_Z_plus, Hm.
        change (inject_Z 1) with 1. ring.
      * assert (E : player_y p + (vy p + 0.5)
                    - (vy p + 0.5) * (vy p + 0.5) - (vy p + 0.5) * (1 # 2)
                    == player_y p - vy p * vy p - vy p * (1 # 2)) by ring.
        rewrite E. exact He.
      * rewrite Eg. intros Hon. destruct (Hg Hon) as [Hy0 Hv0]. lra.
Qed.

Lemma resting_inFlight (p : Player) :
  height p == 60 -> y p == 500 -> vy p == 0 -> inFlight p.
Proof.
  intros Hh Hy Hv. unfold inFlight, energy.
  split; [exact Hh|]. split; [lra|].
  split; [exists 0%Z; rewrite Hv; reflexivity|].
  split; [rewrite Hy, Hv; vm_compute; discriminate|]. auto.
Qed.

Lemma update_inFlight (g : Game) :
  inFlight (player g) -> inFlight (player (update g).1).
Proof.
  intros Hg. apply update_player_cases.
  - exact Hg.
  - apply movePlayer_inFlight, Hg.
  - intros p (Hh & _). apply resting_inFlight; [exact Hh | |]; reflexivity.
  - intros p Hp. unfold inFlight, energy.
    destruct (checkGoal_motion p) as (_ & -> & _ & -> & _ & -> & ->).
    exact Hp.
Qed.

(** X11. A jump rises 138 at most: a player of height 60 that rests on the
    ground line ([y = 500], [vy = 0]) has, after every sequence of events,
    [362 <= y <= 500]; it never leaves the canvas through the top. *)
Theorem jump_height_bounded (es : list Event) (g : Game) :
  height (player g) == 60 ->
  y (player g) == 500 ->
  vy (player g) == 0 ->
  362 <= y (player (run es g).1) /\ y (player (run es g).1) <= 500.
Proof.
  intros Hh Hy Hv.
  assert (Hend : inFlight (player (run es g).1)).
  { apply (run_player_invariant inFlight); [apply update_inFlight|].
    apply resting_inFlight; assumption. }
  split; [apply inFlight_height_bound, Hend | apply Hend].
Qed.

Lemma jump_height_bounded_witness :
  let es := [Begin; KeyDown "ArrowUp"; Frame; Frame; Frame; Frame] in
  362 <= y (player (run es initial_game).1) /\
  y (player (run es initial_game).1) <= 500.
Proof.
  apply (jump_height_bounded
           [Begin; KeyDown "ArrowUp"; Frame; Frame; Frame; Frame]
           initial_game); reflexivity.
Defined.

(** The bound is reached: holding the up key from the start, the player is
    at [y = 362] after the 25th frame and back on the ground after the
    49th. *)
Example jump_apex :
  let g := (run [Begin; KeyDown "ArrowUp"] initial_game).1 in
  y (player (frames 25 g)) == 362 /\
  y (player (frames 49 g)) == 500 /\ onGround (player (frames 49 g)) = true.
Proof. vm_compute. repeat split; reflexivity. Qed.

(** ** The level of the source *)

Lemma freeMove_x_step (ks : gmap string bool) (p : Player) :
  0 <= x p -> width p <= GAME_WIDTH ->
  0 <= x (freeMove ks p) /\ x (freeMove ks p) <= x p + MOVE_SPEED.
Proof.
  intros Hx Hw. unfold freeMove.
  set (q := updatePosition _).
  assert (Hq : x q <= x p + MOVE_SPEED /\ width q = width p).
  { subst q. split.
    - unfold updatePosition, applyGravity, jumping.
      pose proof (horizontalMovement_vx ks p) as Hv.
      assert (Hxh : x (horizontalMovement ks p) = x p)
        by (unfold horizontalMovement; branches; reflexivity).
      revert Hv Hxh. generalize (horizontalMovement ks p). intros h Hv Hxh.
      assert (Hle : vx h <= MOVE_SPEED).
      { rewrite Hv. unfold MOVE_SPEED.
        destruct (pressed ks "ArrowLeft"), (pressed ks "ArrowRight");
          vm_compute; discriminate. }
      branches; rewrite Hxh; lra.
    - apply body_eq.
      rewrite updatePosition_body, applyGravity_body, jumping_body,
        horizontalMovement_body. reflexivity. }
  destruct Hq as [Hqx Hqw]. split.
  - apply keepInBounds_x. rewrite Hqw. exact Hw.
  - clearbody q. unfold keepInBounds, GAME_WIDTH, MOVE_SPEED in *.
    branches; qbool; lra.
Qed.

Lemma update_groundedLeftOfHazard (g : Game) :
  groundedLeftOfHazard g -> groundedLeftOfHazard (update g).1.
Proof.
  intros Hg. destruct (active g) eqn:Hact;
    [|rewrite update_inactive by exact Hact; exact Hg].
  destruct Hg as (Hup & Hc & Hw & Hh & Hx0 & Hx & Hy & Hv & hz & Hhz & Hxz).
  rewrite update_active by exact Hact. cbn [fst player hazards keys].
  (* the move: four to the right at most, and back on the ground line *)
  assert (Hmove : let p := movePlayer (keys g) (player g) in
                  complete p = false /\ width p == 40 /\ height p == 60 /\
                  0 <= x p /\ x p <= 364 /\ y p == 500 /\ vy p == 0).
  { cbv zeta. rewrite movePlayer_complete.
    destruct (movePlayer_size (keys g) (player g)) as [-> ->].
    split; [exact Hc|]. split; [exact Hw|]. split; [exact Hh|].
    unfold movePlayer.
    destruct (freeMove_x_step (keys g) (player g)) as [Hx1 Hx2];
      [exact Hx0 | unfold GAME_WIDTH; lra |].
    destruct (freeMove_vertical (keys g) (player g)) as (Ev & Ey & _ & Eh).
    rewrite Hup in Ev, Ey. cbn [andb] in Ev, Ey.
    revert Hx1 Hx2 Ev Ey Eh. generalize (freeMove (keys g) (player g)).
    intros q Hx1 Hx2 Ev Ey Eh. unfold groundCollision, MOVE_SPEED, GRAVITY in *.
    destruct (y q + height q >? y ground) eqn:Hland; fields; qbool;
      change (rect_y ground) with 560 in *.
    - rewrite Eh. repeat split; lra.
    - exfalso. rewrite Ey, Eh in Hland. lra. }
  revert Hmove. generalize (movePlayer (keys g) (player g)).
  intros p (Hpc & Hpw & Hph & Hpx0 & Hpx & Hpy & Hpv). rewrite Hhz.
  cbn [forEachHazard]. change (moveHazard static_hazard) with static_hazard.
  destruct (moveHazard_keeps hz) as (Hxz' & _).
  assert (Hmiss : forall q : Player,
             x q + width q <= 404 -> rectIntersect q (moveHazard hz) = false).
  { intros q Hq. apply rectIntersect_false. right. left. rewrite Hxz', Hxz. lra. }
  assert (Hgoal : forall q : Player,
             x q + width q <= 404 -> checkGoal q = (q, [])).
  { intros q Hq. unfold checkGoal.
    rewrite (rectIntersect_false q goal); [reflexivity|].
    right. left. change (x goal) with 740. lra. }
  destruct (rectIntersect p static_hazard) eqn:Hhit.
  - (* into the hazard: back to the spawn point *)
    cbn [resetPlayer].
    change (set_onGround false (set_vy 0 (set_vx 0 (set_y 500 (set_x 50 p)))))
      with (spawned p).
    rewrite (Hmiss (spawned p))
      by (change (50 + width p <= 404); lra).
    cbn [fst snd]. rewrite (Hgoal (spawned p))
      by (change (50 + width p <= 404); lra).
    cbn [fst].
    repeat split; try assumption; try reflexivity; try discriminate.
    exists (moveHazard hz). split; [reflexivity | congruence].
  - (* short of the hazard *)
    assert (Hshort : x p <= 360).
    { apply not_true_iff_false in Hhit. rewrite rectIntersect_true in Hhit.
      destruct (Qlt_le_dec 360 (x p)) as [Hlt|Hle]; [|exact Hle].
      exfalso. apply Hhit.
      change (x p < 400 + 50 /\ 400 < x p + width p /\
              y p < 520 + 50 /\ 520 < y p + height p).
      repeat split; lra. }
    rewrite (Hmiss p) by lra. cbn [fst snd].
    rewrite (Hgoal p) by lra. cbn [fst].
    repeat split; try assumption.
    exists (moveHazard hz). split; [reflexivity | congruence].
Qed.

Lemma run_groundedLeftOfHazard (es : list Event) (g : Game) :
  Forall (fun e => e <> KeyDown "ArrowUp") es ->
  groundedLeftOfHazard g -> groundedLeftOfHazard (run es g).1.
Proof.
  intros Hes. revert g. induction Hes as [|e es He _ IH]; intros g Hg;
    [exact Hg|].
  rewrite run_cons. apply IH. destruct e as [c|c| |]; cbn [handle fst].
  - destruct Hg as (Hup & Hrest). split; [|exact Hrest].
    cbn [keys]. rewrite pressed_insert, Hup.
    destruct (String.eqb_spec c "ArrowUp") as [->|_];
      [contradiction | reflexivity].
  - destruct Hg as (Hup & Hrest). split; [|exact Hrest].
    cbn [keys]. rewrite pressed_insert, Hup.
    destruct (String.eqb c "ArrowUp"); reflexivity.
  - exact Hg.
  - apply update_groundedLeftOfHazard, Hg.
Qed.

(** X12. The source's level cannot be finished without jumping: from the
    initial state, no sequence of events in which the up key is never
    pressed sets [complete]; the player stays on the ground line at
    [x <= 360], left of the static hazard. *)
Theorem no_win_without_jump (es : list Event) :
  Forall (fun e => e <> KeyDown "ArrowUp") es ->
  complete (player (run es initial_game).1) = false /\
  x (player (run es initial_game).1) <= 360 /\
  y (player (run es initial_game).1) == 500.
Proof.
  intros Hes.
  assert (Hend : groundedLeftOfHazard (run es initial_game).1).
  { apply run_groundedLeftOfHazard; [exact Hes|].
    repeat split; try reflexivity; try (vm_compute; discriminate).
    exists moving_hazard. split; reflexivity. }
  destruct Hend as (_ & Hc & _ & _ & _ & Hx & Hy & _). auto.
Qed.

Lemma no_win_without_jump_witness :
  let es := Begin :: KeyDown "ArrowRight" :: replicate 90 Frame in
  complete (player (run es initial_game).1) = false /\
  x (player (run es initial_game).1) <= 360 /\
  y (player (run es initial_game).1) == 500.
Proof.
  apply (no_win_without_jump
           (Begin :: KeyDown "ArrowRight" :: replicate 90 Frame)).
  repeat (constructor; [discriminate|]). constructor.
Defined.

(** X13. The source's level can be finished without touching a hazard:
    [winning_run] ends with [complete] set, the form requested once and no
    flash requested. *)
Theorem level_can_be_won :
  exists es : list Event,
    complete (player (run es initial_game).1) = true /\
    flashRequests (run es initial_game).2 = 0%nat /\
    formRequests (run es initial_game).2 = 1%nat.
Proof.
  exists winning_run.
  remember (run winning_run initial_game) as r eqn:Er.
  assert (Hrun : (complete (player r.1), flashRequests r.2, formRequests r.2)
                 = (true, 0%nat, 1%nat))
    by (rewrite Er; vm_compute; reflexivity).
  clear Er. injection Hrun as Hc Hflash Hform. auto.
Qed.

(** ** The flash *)

Lemma horizontalMovement_color ks p : color (horizontalMovement ks p) = color p.
Proof. by_cases horizontalMovement. Qed.
Lemma jumping_color ks p : color (jumping ks p) = color p.
Proof. by_cases jumping. Qed.
Lemma applyGravity_color p : color (applyGravity p) = color p.
Proof. by_cases applyGravity. Qed.
Lemma updatePosition_color p : color (updatePosition p) = color p.
Proof. by_cases updatePosition. Qed.
Lemma keepInBounds_color p : color (keepInBounds p) = color p.
Proof. by_cases keepInBounds. Qed.
Lemma groundCollision_color p : color (groundCollision p) = color p.
Proof. by_cases groundCollision. Qed.

Lemma movePlayer_color (ks : gmap string bool) (p : Player) :
  color (movePlayer ks p) = color p.
Proof.
  unfold movePlayer, freeMove.
  rewrite groundCollision_color, keepInBounds_color, updatePosition_color,
    applyGravity_color, jumping_color, horizontalMovement_color.
  reflexivity.
Qed.

(** No handler of the module writes the colour; only the flash does. *)
Lemma handle_color (e : Event) (g : Game) :
  color (player (handle e g).1) = color (player g).
Proof.
  destruct e; cbn [handle fst player]; try reflexivity.
  apply (update_player_cases (fun p => color p = color (player g))).
  - reflexivity.
  - apply movePlayer_color.
  - intros p Hp. exact Hp.
  - intros p Hp. unfold checkGoal. destruct (rectIntersect p goal); exact Hp.
Qed.

(** Every request of the module is one of the two it can make. *)
Lemma handle_effects (e : Event) (g : Game) (fx : Effect) :
  In fx (handle e g).2 -> fx = FlashPlayer 6 100 \/ fx = ShowEmailFormAfter 300.
Proof.
  destruct e; cbn [handle snd]; try (intros []).
  destruct (active g) eqn:Hact.
  - rewrite update_active by exact Hact. cbn [snd]. intros Hin.
    apply in_app_or in Hin. destruct Hin as [Hin|Hin].
    + left. exact (forEachHazard_effects _ _ _ Hin).
    + right. rewrite checkGoal_effects in Hin.
      destruct (rectIntersect _ goal); [|destruct Hin].
      destruct Hin as [<-|[]]. reflexivity.
  - rewrite update_inactive by exact Hact. intros [].
Qed.

Lemma schedule_all (fx : list Effect) (pg : Page) :
  let pg' := fold_left schedule fx pg in
  game pg' = game pg /\
  intervals pg' = intervals pg ++ flashCounters fx /\
  timeouts pg' = (timeouts pg + formRequests fx)%nat /\
  introContainer pg' = introContainer pg /\
  gameContainer pg' = gameContainer pg /\
  emailContainer pg' = emailContainer pg.
Proof.
  cbv zeta. revert pg. induction fx as [|e fx IH]; intros pg.
  - cbn. rewrite app_nil_r, Nat.add_0_r. repeat split; reflexivity.
  - cbn [fold_left]. destruct (IH (schedule pg e)) as (-> & -> & -> & -> & -> & ->).
    destruct e; cbn [schedule game intervals timeouts introContainer
                     gameContainer emailContainer flashCounters flat_map];
      unfold formRequests; cbn [List.filter isFormRequest length];
      rewrite <- ?app_assoc; repeat split; try reflexivity; lia.
Qed.

Lemma deliver_input (e : Event) (pg : Page) :
  deliver (Input e) pg
  = fold_left schedule (handle e (game pg)).2
      (mkPage (handle e (game pg)).1 (intervals pg) (timeouts pg)
              (match e with
               | Begin => setDisplay "none" (introContainer pg)
               | _ => introContainer pg
               end)
              (gameContainer pg) (emailContainer pg)).
Proof. cbn [deliver]. destruct (handle e (game pg)). reflexivity. Qed.

Lemma browse_snoc (es : list PageEvent) (e : PageEvent) (pg : Page) :
  browse (es ++ [e]) pg = deliver e (browse es pg).
Proof. unfold browse. rewrite fold_left_app. reflexivity. Qed.

(** An invariant of the page that every delivery keeps holds after every
    sequence of events. *)
Lemma browse_invariant (P : Page -> Prop) :
  (forall e pg, P pg -> P (deliver e pg)) ->
  forall es pg, P pg -> P (browse es pg).
Proof.
  intros Hstep es. induction es as [|e es IH]; intros pg Hpg; [exact Hpg|].
  apply IH, Hstep, Hpg.
Qed.

Lemma flashCallback_cases (n : Z) (p : Player) :
  (1 <= n <= 6)%Z ->
  color p = "#FFD700" \/ color p = "#333333" ->
  let p' := (flashCallback n p).1 in
  let remaining := (flashCallback n p).2 in
  (color p' = "#FFD700" \/ color p' = "#333333") /\
  (remaining = None /\ n = 1%Z /\ color p' = "#FFD700" \/
   remaining = Some (n - 1)%Z /\ (1 <= n - 1 <= 6)%Z) /\
  complete p' = complete p.
Proof.
  intros Hn Hcolor. unfold flashCallback.
  destruct (Z.leb_spec (n - 1) 0) as [Hlast|Hmore]; cbn [fst snd color set_color complete].
  - split; [left; reflexivity|]. split; [|reflexivity].
    left. repeat split. lia.
  - split; [|split; [right; split; [reflexivity | lia] | reflexivity]].
    destruct Hcolor as [-> | ->]; cbn; auto.
Qed.

Lemma handle_flashCounters (e : Event) (g : Game) :
  Forall (fun n => (1 <= n <= 6)%Z) (flashCounters (handle e g).2).
Proof.
  pose proof (handle_effects e g) as Hfx. revert Hfx.
  generalize (handle e g).2. intros fx Hfx.
  induction fx as [|f fx IH]; [constructor|].
  cbn [flashCounters flat_map].
  destruct (Hfx f (or_introl eq_refl)) as [-> | ->]; cbn [app].
  - constructor; [cbn; lia|]. apply IH. intros f' Hf'. apply Hfx. right. exact Hf'.
  - apply IH. intros f' Hf'. apply Hfx. right. exact Hf'.
Qed.

Lemma deliver_flashing (e : PageEvent) (pg : Page) :
  flashing pg -> flashing (deliver e pg).
Proof.
  intros (Hcount & Hcolor & Hidle). destruct e as [e|i|].
  - rewrite deliver_input.
    destruct (schedule_all (handle e (game pg)).2
                (mkPage (handle e (game pg)).1 (intervals pg) (timeouts pg)
                        (match e with
                         | Begin => setDisplay "none" (introContainer pg)
                         | _ => introContainer pg
                         end)
                        (gameContainer pg) (emailContainer pg)))
      as (Eg & Ei & _).
    unfold flashing. rewrite Eg, Ei. cbn [game intervals].
    rewrite handle_color. split; [|split; [exact Hcolor|]].
    + apply Forall_app. split; [exact Hcount | apply handle_flashCounters].
    + intros Hnil. apply app_eq_nil in Hnil. apply Hidle, Hnil.
  - cbn [deliver]. destruct (intervals pg !! i) as [n|] eqn:Hi;
      [|repeat split; assumption].
    assert (Hn : (1 <= n <= 6)%Z).
    { rewrite List.Forall_forall in Hcount. apply Hcount.
      apply list_elem_of_In. eapply list_elem_of_lookup_2, Hi. }
    destruct (flashCallback_cases n (player (game pg)) Hn Hcolor)
      as (Hcolor' & Hleft & _).
    destruct (flashCallback n (player (game pg))) as [p' remaining].
    cbn [fst snd] in *. unfold flashing. cbn [game intervals player].
    destruct Hleft as [(-> & _ & Hgold)|(-> & Hn')].
    + split; [apply Forall_delete, Hcount|]. split; [exact Hcolor'|].
      intros _. exact Hgold.
    + split; [apply Forall_insert; assumption|]. split; [exact Hcolor'|].
      intros Hnil. exfalso.
      apply lookup_lt_Some in Hi.
      apply (f_equal length) in Hnil. rewrite length_insert in Hnil.
      cbn in Hnil. lia.
  - cbn [deliver]. destruct (timeouts pg); repeat split; assumption.
Qed.

(** X14. The flash always ends on gold: on a page that starts with no
    interval running and a gold player, after every sequence of inputs and
    timer firings, in any order, the player is gold or dark, every running
    interval has between one and six runs left, and whenever no interval is
    running the player is gold. *)
Theorem flash_ends_on_gold (es : list PageEvent) (pg : Page) :
  intervals pg = [] ->
  color (player (game pg)) = "#FFD700" ->
  let pg' := browse es pg in
  (intervals pg' = [] -> color (player (game pg')) = "#FFD700") /\
  (color (player (game pg')) = "#FFD700" \/
   color (player (game pg')) = "#333333") /\
  Forall (fun n => (1 <= n <= 6)%Z) (intervals pg').
Proof.
  intros Hidle Hgold pg'.
  assert (Hend : flashing pg').
  { apply (browse_invariant flashing deliver_flashing).
    unfold flashing. rewrite Hidle. repeat split; auto. }
  destruct Hend as (Hcount & Hcolor & Hnone). auto.
Qed.

Lemma flash_ends_on_gold_witness :
  let pg' :=
    browse [Input Begin; Input (KeyDown "ArrowRight"); Input Frame;
            IntervalFires 0; Input Frame; TimeoutFires]
           (mkPage overlapping_static_hazard [] 0
                   (Some "block") (Some "block") (Some "none")) in
  (intervals pg' = [] -> color (player (game pg')) = "#FFD700") /\
  (color (player (game pg')) = "#FFD700" \/
   color (player (game pg')) = "#333333") /\
  Forall (fun n => (1 <= n <= 6)%Z) (intervals pg').
Proof.
  apply (flash_ends_on_gold
           [Input Begin; Input (KeyDown "ArrowRight"); Input Frame;
            IntervalFires 0; Input Frame; TimeoutFires]
           (mkPage overlapping_static_hazard [] 0
                   (Some "block") (Some "block") (Some "none")));
    reflexivity.
Defined.

(** X15. A flash that runs alone runs six times: with one interval just
    started, its [k]-th run for [k < 6] leaves it running with [6 - k] runs
    to go, and the sixth clears it and leaves the player gold; none of the
    runs touches anything of the player but the colour. *)
Theorem flash_runs_six_times (pg : Page) (k : nat) :
  intervals pg = [6%Z] ->
  color (player (game pg)) = "#FFD700" \/
  color (player (game pg)) = "#333333" ->
  (k < 6)%nat ->
  let during := browse (replicate k (IntervalFires 0)) pg in
  let after := browse (replicate 6 (IntervalFires 0)) pg in
  intervals during = [(6 - Z.of_nat k)%Z] /\
  intervals after = [] /\
  game after = mkGame (gameRunning (game pg))
                      (set_color "#FFD700" (player (game pg)))
                      (hazards (game pg)) (keys (game pg)).
Proof.
  intros Hi Hcolor Hk.
  destruct pg as [[r p hzs ks] ivs ts ic gc ec].
  cbn [intervals game player] in Hi, Hcolor. subst ivs.
  destruct p as [px py pw ph pvx pvy pg' pc pcomp].
  cbn [color] in Hcolor.
  destruct Hcolor as [-> | ->];
    do 6 (destruct k as [|k]; [cbv zeta; repeat split; reflexivity|]);
    exfalso; lia.
Qed.

Lemma flash_runs_six_times_witness :
  let pg := mkPage initial_game [6%Z] 0 (Some "block") (Some "block")
                   (Some "none") in
  let during := browse (replicate 3 (IntervalFires 0)) pg in
  let after := browse (replicate 6 (IntervalFires 0)) pg in
  intervals during = [(6 - Z.of_nat 3)%Z] /\
  intervals after = [] /\
  game after = mkGame (gameRunning (game pg))
                      (set_color "#FFD700" (player (game pg)))
                      (hazards (game pg)) (keys (game pg)).
Proof.
  apply (flash_runs_six_times
           (mkPage initial_game [6%Z] 0 (Some "block") (Some "block")
                   (Some "none")) 3).
  - reflexivity.
  - left. reflexivity.
  - lia.
Defined.

(** ** The e-mail form on the page *)

Lemma handle_after_goal (e : Event) (g : Game) :
  complete (player g) = true ->
  complete (player (handle e g).1) = true /\ (handle e g).2 = [].
Proof.
  intros Hc. destruct e; cbn [handle fst snd player]; auto.
  rewrite update_inactive by (apply active_false; auto). auto.
Qed.

Lemma handle_before_goal (e : Event) (g : Game) :
  complete (player g) = false ->
  formRequests (handle e g).2
  = if complete (player (handle e g).1) then 1%nat else 0%nat.
Proof.
  intros Hc. destruct e; cbn [handle fst snd player startGame];
    try (rewrite Hc; reflexivity).
  apply update_requests, Hc.
Qed.

Lemma flashCallback_complete (n : Z) (p : Player) :
  complete (flashCallback n p).1 = complete p.
Proof. unfold flashCallback. destruct (_ <=? _)%Z; reflexivity. Qed.

Lemma deliver_formPending (e : PageEvent) (pg : Page) :
  formPending pg -> formPending (deliver e pg).
Proof.
  unfold formPending. intros Hpg. destruct e as [e|i|].
  - rewrite deliver_input.
    destruct (schedule_all (handle e (game pg)).2
                (mkPage (handle e (game pg)).1 (intervals pg) (timeouts pg)
                        (match e with
                         | Begin => setDisplay "none" (introContainer pg)
                         | _ => introContainer pg
                         end)
                        (gameContainer pg) (emailContainer pg)))
      as (-> & _ & -> & _ & -> & ->).
    cbn [game timeouts gameContainer emailContainer].
    destruct (complete (player (game pg))) eqn:Hc.
    + destruct (handle_after_goal e (game pg) Hc) as [-> ->]. cbn. lia.
    + rewrite (handle_before_goal e (game pg) Hc).
      destruct Hpg as (-> & Hemail & Hgame).
      destruct (complete (player (handle e (game pg)).1)); [lia|auto].
  - cbn [deliver]. destruct (intervals pg !! i) as [n|]; [|exact Hpg].
    pose proof (flashCallback_complete n (player (game pg))) as Hc.
    destruct (flashCallback n (player (game pg))) as [p' remaining].
    cbn [fst] in Hc.
    cbn [game player timeouts gameContainer emailContainer].
    rewrite Hc. exact Hpg.
  - cbn [deliver]. destruct (timeouts pg) as [|n] eqn:Ht; [rewrite Ht; exact Hpg|].
    cbn [showEmailForm game player timeouts gameContainer emailContainer].
    destruct (complete (player (game pg))); [lia|].
    destruct Hpg as (Hzero & _). discriminate Hzero.
Qed.

(** X16. The form is shown only for a finished level: on a page that starts
    before the goal with no timeout pending, the form not shown and the
    game not hidden, after every sequence of inputs and timer firings the
    e-mail container has [display = "block"], or the game container
    [display = "none"], only if [complete] is set, and at most one timeout
    is pending, none before the goal. *)
Theorem form_shown_only_after_goal (es : list PageEvent) (pg : Page) :
  complete (player (game pg)) = false ->
  timeouts pg = 0%nat ->
  emailContainer pg <> Some "block" ->
  gameContainer pg <> Some "none" ->
  let pg' := browse es pg in
  (emailContainer pg' = Some "block" ->
   complete (player (game pg')) = true) /\
  (gameContainer pg' = Some "none" ->
   complete (player (game pg')) = true) /\
  (timeouts pg' <= 1)%nat /\
  (complete (player (game pg')) = false -> timeouts pg' = 0%nat).
Proof.
  intros Hc Ht Hemail Hgame pg'.
  assert (Hend : formPending pg').
  { apply (browse_invariant formPending deliver_formPending).
    unfold formPending. rewrite Hc. auto. }
  unfold formPending in Hend.
  destruct (complete (player (game pg'))).
  - repeat split; auto. discriminate.
  - destruct Hend as (Hzero & Hemail' & Hgame').
    repeat split; try contradiction; auto. lia.
Qed.

Lemma form_shown_only_after_goal_witness :
  let pg' :=
    browse [Input Frame; TimeoutFires; Input Frame]
           (mkPage at_goal [] 0 (Some "block") (Some "block") (Some "none")) in
  (emailContainer pg' = Some "block" ->
   complete (player (game pg')) = true) /\
  (gameContainer pg' = Some "none" ->
   complete (player (game pg')) = true) /\
  (timeouts pg' <= 1)%nat /\
  (complete (player (game pg')) = false -> timeouts pg' = 0%nat).
Proof.
  apply (form_shown_only_after_goal
           [Input Frame; TimeoutFires; Input Frame]
           (mkPage at_goal [] 0 (Some "block") (Some "block") (Some "none")));
    try reflexivity; discriminate.
Defined.

(** The way to the form: the frame that reaches the goal, then the timeout. *)
Example goal_then_timeout_shows_form :
  let pg' :=
    browse [Input Frame; TimeoutFires]
           (mkPage at_goal [] 0 (Some "block") (Some "block") (Some "none")) in
  emailContainer pg' = Some "block" /\ gameContainer pg' = Some "none" /\
  timeouts pg' = 0%nat.
Proof. vm_compute. repeat split; reflexivity. Qed.

(** ** Submitting the form *)

Lemma trimStart_head (s : list N) :
  match trimStart s with
  | c :: _ => isWhiteSpace c = false
  | [] => True
  end.
Proof.
  induction s as [|c s IH]; cbn [trimStart]; [exact I|].
  destruct (isWhiteSpace c) eqn:Hc; [exact IH | exact Hc].
Qed.

Lemma trimStart_nil (s : list N) :
  trimStart s = [] <-> forallb isWhiteSpace s = true.
Proof.
  induction s as [|c s IH]; cbn [trimStart forallb]; [tauto|].
  destruct (isWhiteSpace c); cbn [andb]; [exact IH|].
  split; discriminate.
Qed.

Lemma forallb_rev (f : N -> bool) (s : list N) :
  forallb f (rev s) = forallb f s.
Proof.
  apply eq_true_iff_eq. rewrite !List.forallb_forall.
  split; intros Hall c Hc; apply Hall.
  - rewrite <- List.in_rev. exact Hc.
  - rewrite List.in_rev. exact Hc.
Qed.

Lemma trimEnd_nil (s : list N) :
  trimEnd s = [] <-> forallb isWhiteSpace s = true.
Proof.
  unfold trimEnd. rewrite <- (forallb_rev _ s), <- trimStart_nil.
  split; intros Hnil.
  - apply (f_equal (@rev N)) in Hnil. rewrite rev_involutive in Hnil.
    exact Hnil.
  - rewrite Hnil. reflexivity.
Qed.

(** [trim] leaves nothing exactly of the strings made of white space. *)
Lemma trim_nil (s : list N) :
  trim s = [] <-> forallb isWhiteSpace s = true.
Proof.
  unfold trim. rewrite trimEnd_nil, <- (trimStart_nil s).
  pose proof (trimStart_head s) as Hhead.
  destruct (trimStart s) as [|c r]; [tauto|].
  cbn [forallb]. rewrite Hhead. cbn [andb]. split; discriminate.
Qed.

(** X17. [handleEmailSubmit] accepts whatever is not blank: with both
    elements on the page, a value made of white space only (the empty value
    included) is kept and answered with the request for a valid address;
    any other value is answered with the thanks and the input is emptied;
    no other check is made on the address. With an element missing nothing
    is written. The default action is prevented in every case. *)
Theorem handleEmailSubmit_accepts_non_blank (f : EmailForm) :
  (forall value message : list N,
     emailInput f = Some value -> emailMessage f = Some message ->
     handleEmailSubmit f
     = (if forallb isWhiteSpace value
        then mkEmailForm
               (Some value)
               (Some (codeUnits "Please enter a valid email address."))
        else mkEmailForm
               (Some [])
               (Some (codeUnits "Thank you! We'll be in touch.")),
        true)) /\
  (emailInput f = None \/ emailMessage f = None ->
   handleEmailSubmit f = (f, true)).
Proof.
  split.
  - intros value message Hi Hm. unfold handleEmailSubmit. rewrite Hi, Hm.
    destruct (forallb isWhiteSpace value) eqn:Hblank.
    + apply trim_nil in Hblank. rewrite Hblank. reflexivity.
    + destruct (trim value) as [|c r] eqn:Htrim; [|reflexivity].
      apply trim_nil in Htrim. congruence.
  - intros Hmissing. unfold handleEmailSubmit.
    destruct (emailInput f), (emailMessage f), Hmissing;
      try discriminate; reflexivity.
Qed.

Lemma handleEmailSubmit_accepts_non_blank_witness :
  handleEmailSubmit
    (mkEmailForm (Some (codeUnits " not an address ")) (Some []))
  = (mkEmailForm (Some []) (Some (codeUnits "Thank you! We'll be in touch.")),
     true) /\
  handleEmailSubmit (mkEmailForm None (Some [])) = (mkEmailForm None (Some []), true).
Proof.
  destruct (handleEmailSubmit_accepts_non_blank
              (mkEmailForm (Some (codeUnits " not an address ")) (Some [])))
    as [Hboth _].
  destruct (handleEmailSubmit_accepts_non_blank (mkEmailForm None (Some [])))
    as [_ Hmissing].
  split.
  - exact (Hboth _ _ eq_refl eq_refl).
  - apply Hmissing. left. reflexivity.
Defined.

(** X18. The thanks do not survive a second click: with both elements on
    the page, submitting again right after any submission is answered with
    the request for a valid address, because an accepted value has been
    emptied and a rejected one is still blank. *)
Theorem second_submit_is_rejected (f : EmailForm) (value message : list N) :
  emailInput f = Some value -> emailMessage f = Some message ->
  let once := (handleEmailSubmit f).1 in
  handleEmailSubmit once
  = (mkEmailForm (emailInput once)
                 (Some (codeUnits "Please enter a valid email address.")),
     true).
Proof.
  intros Hi Hm once.
  destruct (handleEmailSubmit_accepts_non_blank f) as [Hboth _].
  assert (Honce : once = (handleEmailSubmit f).1) by reflexivity.
  rewrite (Hboth value message Hi Hm) in Honce. cbn [fst] in Honce.
  destruct (forallb isWhiteSpace value) eqn:Hblank; rewrite Honce.
  - destruct (handleEmailSubmit_accepts_non_blank
                (mkEmailForm (Some value)
                   (Some (codeUnits "Please enter a valid email address."))))
      as [Hagain _].
    rewrite (Hagain _ _ eq_refl eq_refl), Hblank. reflexivity.
  - reflexivity.
Qed.

Lemma second_submit_is_rejected_witness :
  let f := mkEmailForm (Some (codeUnits "a@b.c")) (Some []) in
  let once := (handleEmailSubmit f).1 in
  handleEmailSubmit once
  = (mkEmailForm (emailInput once)
                 (Some (codeUnits "Please enter a valid email address.")),
     true).
Proof.
  apply (second_submit_is_rejected
           (mkEmailForm (Some (codeUnits "a@b.c")) (Some []))
           (codeUnits "a@b.c") []); reflexivity.
Defined.

(** ** Walls *)

Lemma keepInBounds_clamp (q : Player) :
  width q <= GAME_WIDTH ->
  x (keepInBounds q) == Qmin (Qmax (x q) 0) (GAME_WIDTH - width q).
Proof.
  intros Hw. unfold keepInBounds, GAME_WIDTH in *.
  destruct (Q.max_spec (x q) 0) as [[Hlt Emax]|[Hle Emax]];
    destruct (Q.min_spec (Qmax (x q) 0) (800 - width q))
      as [[Hlt' Emin]|[Hle' Emin]];
    rewrite Emin; rewrite Emax in *; branches; qbool; lra.
Qed.

(** X19. The two tests on [x] are a clamp: for a player no wider than the
    world, the move takes [x] to [x + v] cut off at 0 on the left and at
    [GAME_WIDTH - width] on the right, [v] being the speed the keys ask
    for. *)
Theorem walls_clamp (ks : gmap string bool) (p : Player) :
  width p <= GAME_WIDTH ->
  let v := if pressed ks "ArrowLeft" then - MOVE_SPEED
           else if pressed ks "ArrowRight" then MOVE_SPEED else 0 in
  x (movePlayer ks p) == Qmin (Qmax (x p + v) 0) (GAME_WIDTH - width p).
Proof.
  intros Hw v. unfold movePlayer, freeMove.
  set (q := updatePosition _).
  assert (Hq : x q = x p + v /\ width q = width p).
  { subst q v. split.
    - rewrite <- (horizontalMovement_vx ks p).
      assert (Hxh : x (horizontalMovement ks p) = x p)
        by (unfold horizontalMovement; branches; reflexivity).
      rewrite <- Hxh. generalize (horizontalMovement ks p). intros h.
      unfold updatePosition, applyGravity, jumping. branches; reflexivity.
    - apply body_eq.
      rewrite updatePosition_body, applyGravity_body, jumping_body,
        horizontalMovement_body. reflexivity. }
  destruct Hq as [Hqx Hqw]. clearbody q.
  assert (Hx : x (groundCollision (keepInBounds q)) = x (keepInBounds q))
    by (unfold groundCollision; branches; reflexivity).
  rewrite Hx, <- Hqx, <- Hqw. apply keepInBounds_clamp. rewrite Hqw. exact Hw.
Qed.

Lemma walls_clamp_witness :
  x (movePlayer right_only (set_x 758 initial_player))
  == Qmin (Qmax (758 + MOVE_SPEED) 0) (GAME_WIDTH - 40).
Proof.
  apply (walls_clamp right_only (set_x 758 initial_player)).
  vm_compute. discriminate.
Defined.

(** ** Hazards in step *)

(** X20. The hazards move in step and on their own: after every sequence
    of events each hazard has been moved the same number [m] of times, one
    per frame that passed the guard, so [m] is at most the number of
    frames; neither the keys nor what happens to the player enter. *)
Theorem hazards_move_in_step (es : list Event) (g : Game) :
  exists m : nat,
    (m <= length (List.filter isFrame es))%nat /\
    hazards (run es g).1 = map (Nat.iter m moveHazard) (hazards g).
Proof.
  revert g. induction es as [|e es IH]; intros g.
  - exists 0%nat. split; [cbn; lia|]. symmetry. apply List.map_id.
  - rewrite run_cons. destruct (IH (handle e g).1) as (m & Hm & Hhz).
    rewrite Hhz.
    destruct e; cbn [List.filter isFrame length];
      try (exists m; split; [assumption | reflexivity]).
    cbn [handle]. destruct (active g) eqn:Hact.
    + exists (S m). split; [lia|]. rewrite update_hazards by exact Hact.
      rewrite List.map_map. apply List.map_ext. intros hz.
      symmetry. apply Nat.iter_succ_r.
    + exists m. split; [lia|].
      rewrite update_inactive by exact Hact. reflexivity.
Qed.

(** * Hazards and rounding *)

(** C9 fails as stated. The hazard is at [y = rangeTop], its speed is
    positive and its range holds it; one step of the code turns it, and
    leaves its bottom edge further than [dy] beyond [rangeBottom]: the sum
    [10.25 + 0.3] is rounded up, so that the hazard has moved by more than
    its speed. *)
Lemma rounding_passes_one_step :
  let hz := rounded_hazard in
  let hz' := moveHazard64 hz in
  exactValue (y64 hz) == exactValue (rangeTop64 hz) /\
  0 < exactValue (dy64 hz) /\
  exactValue (rangeTop64 hz) + exactValue (height64 hz)
  <= exactValue (rangeBottom64 hz) /\
  dy64 hz' = (- dy64 hz)%float /\
  exactValue (rangeBottom64 hz) + exactValue (dy64 hz)
  < exactValue (y64 hz') + exactValue (height64 hz') /\
  exactValue (dy64 hz) < exactValue (y64 hz') - exactValue (y64 hz).
Proof. vm_compute. repeat split; congruence. Qed.

(** Rounding also moves the turn. With exact sums the moving hazard of
    the source, put at the top of a range that ends at 542, reaches 542
    with its bottom edge at frame 10 and turns there; the code adds 1.2 ten
    times to 491.99999999999994, goes on, and turns at frame 11. *)
Lemma rounding_turns_a_frame_late :
  turnTick late_hazard (mkOscillation 1.2 480 542) = 10%nat /\
  speed (Nat.iter 10 moveHazard late_hazard) == - 1.2 /\
  dy64 (Nat.iter 10 moveHazard64 late_hazard64) = dy64 late_hazard64 /\
  dy64 (Nat.iter 11 moveHazard64 late_hazard64) = (- dy64 late_hazard64)%float /\
  exactValue (y64 (Nat.iter 10 moveHazard64 late_hazard64)) < 492.
Proof. vm_compute. repeat split; congruence. Qed.

(** On the grid the two steps agree: over eighty frames, two full swings
    and more, the code's numbers for [dyadic_hazard] are the exact ones. *)
Lemma binary64_agrees_on_grid (k : nat) :
  (k <= 80)%nat ->
  exactValue (y64 (Nat.iter k moveHazard64 dyadic_hazard64))
  == y (Nat.iter k moveHazard dyadic_hazard) /\
  exactValue (dy64 (Nat.iter k moveHazard64 dyadic_hazard64))
  == speed (Nat.iter k moveHazard dyadic_hazard).
Proof.
  intros Hk.
  assert (Hall :
    forallb
      (fun j =>
         Qeq_bool (exactValue (y64 (Nat.iter j moveHazard64 dyadic_hazard64)))
                  (y (Nat.iter j moveHazard dyadic_hazard)) &&
         Qeq_bool (exactValue (dy64 (Nat.iter j moveHazard64 dyadic_hazard64)))
                  (speed (Nat.iter j moveHazard dyadic_hazard)))
      (seq 0 81) = true) by (vm_compute; reflexivity).
  rewrite forallb_forall in Hall.
  specialize (Hall k ltac:(apply in_seq; lia)).
  apply andb_true_iff in Hall. destruct Hall as [Hy Hd].
  split; apply Qeq_bool_iff; assumption.
Qed.

(** ** Sums without rounding *)

Lemma scale_pos (e : nat) : 0 < scale e.
Proof.
  unfold scale. change 0 with (inject_Z 0). rewrite <- Zlt_Qlt.
  apply Z.pow_pos_nonneg; lia.
Qed.

Lemma dyadic_eq (e : nat) (a b : Q) : a == b -> dyadic e a -> dyadic e b.
Proof. intros Eab [m Hm]. exists m. rewrite <- Eab. exact Hm. Qed.

Lemma dyadic_plus (e : nat) (a b : Q) :
  dyadic e a -> dyadic e b -> dyadic e (a + b).
Proof.
  intros [ma Ha] [mb Hb]. exists (ma + mb)%Z.
  rewrite inject_Z_plus, <- Ha, <- Hb. ring.
Qed.

Lemma dyadic_opp (e : nat) (a : Q) : dyadic e a -> dyadic e (a * -1).
Proof.
  intros [ma Ha]. exists (- ma)%Z. rewrite inject_Z_opp, <- Ha. ring.
Qed.

(** The size of a number in grains, with and without the absolute value. *)
Lemma scaled_abs (q S B : Q) :
  0 < S -> (Qabs q * S <= B <-> - B <= q * S /\ q * S <= B).
Proof.
  intros HS. apply (Qabs_case q); intros Hq.
  - assert (Hp : 0 <= q * S)
      by (apply Qmult_le_0_compat; [exact Hq | apply Qlt_le_weak, HS]).
    split; [intros Hb; split; lra | intros [_ Hb]; exact Hb].
  - assert (Hp : 0 <= - q * S)
      by (apply Qmult_le_0_compat; [lra | apply Qlt_le_weak, HS]).
    split; [intros Hb; split; lra | intros [Hb _]; lra].
Qed.

Lemma onGrid_bounds (e : nat) (q : Q) :
  onGrid e q ->
  - 1125899906842624 <= q * scale e /\ q * scale e <= 1125899906842624.
Proof.
  intros [_ Hb]. apply (scaled_abs q _ _ (scale_pos e)) in Hb.
  destruct Hb. split; lra.
Qed.

Lemma onGrid_opp (e : nat) (q : Q) : onGrid e q -> onGrid e (q * -1).
Proof.
  intros Hq. destruct (onGrid_bounds e q Hq) as [Hlo Hhi].
  destruct Hq as [Hd _]. split; [apply dyadic_opp, Hd|].
  apply (scaled_abs _ _ _ (scale_pos e)). split; lra.
Qed.

Lemma exact64_intro (e : nat) (q : Q) :
  (e <= 1000)%nat -> dyadic e q ->
  - 5629499534213120 <= q * scale e -> q * scale e <= 5629499534213120 ->
  exact64 e q.
Proof.
  intros He Hd Hlo Hhi. split; [exact He|]. split; [exact Hd|].
  apply Qle_lt_trans with 5629499534213120; [|reflexivity].
  apply (scaled_abs _ _ _ (scale_pos e)). split; assumption.
Qed.

Lemma moveHazard_y (hz : Hazard) (o : Oscillation) :
  oscillation hz = Some o ->
  y (moveHazard hz) = y hz + dy o \/ y (moveHazard hz) = y hz.
Proof.
  intros Ho. unfold moveHazard. rewrite Ho.
  destruct (truthy (dy o)); [|right; reflexivity].
  left.
  cbn [x y width height Hazard_Rectangular hazard_y set_hazard_y].
  destruct (_ || _); reflexivity.
Qed.

Lemma moveHazard_gridHazard (e : nat) (hz : Hazard) :
  gridHazard e hz -> gridHazard e (moveHazard hz).
Proof.
  intros (Hy & Hh & Ho).
  destruct (moveHazard_keeps hz) as (_ & _ & Eh & _ & Eo).
  destruct (oscillation hz) as [o|] eqn:Hosc.
  - destruct (Ho o eq_refl) as (Hd & Ht & Hb).
    split; [|split].
    + destruct (moveHazard_y hz o Hosc) as [-> | ->]; [|exact Hy].
      apply dyadic_plus; [exact Hy | apply Hd].
    + rewrite Eh. exact Hh.
    + intros o' Ho'. rewrite Ho' in Eo. destruct Eo as (-> & -> & Ed).
      split; [|split; assumption].
      destruct Ed as [-> | ->]; [exact Hd | apply onGrid_opp, Hd].
  - assert (Hsame : moveHazard hz = hz)
      by (apply moveHazard_static; intros o Ho'; congruence).
    rewrite Hsame. split; [exact Hy|]. split; [exact Hh|].
    intros o Ho'. congruence.
Qed.

Lemma iter_gridHazard (e : nat) (m : nat) (hz : Hazard) :
  gridHazard e hz -> gridHazard e (Nat.iter m moveHazard hz).
Proof.
  intros Hg. induction m as [|m IH]; [exact Hg|].
  change (Nat.iter (S m) moveHazard hz)
    with (moveHazard (Nat.iter m moveHazard hz)).
  apply moveHazard_gridHazard, IH.
Qed.

(** On the grid, a hazard whose top edge is between [lo] and [hi], each
    three grid numbers away from zero at most, is read and moved without
    rounding. *)
Lemma grid_stepExact (e : nat) (hz : Hazard) :
  (e <= 1000)%nat ->
  gridHazard e hz ->
  (forall o, oscillation hz = Some o ->
     - 3377699720527872 <= y hz * scale e /\
     y hz * scale e <= 3377699720527872) ->
  stepExact e hz.
Proof.
  intros He (Hy & Hh & Ho) Hbound o Hosc.
  destruct (Hbound o Hosc) as [Hlo Hhi].
  destruct (Ho o Hosc) as (Hd & _).
  destruct (onGrid_bounds e _ Hh) as [Hh1 Hh2].
  destruct (onGrid_bounds e _ Hd) as [Hd1 Hd2].
  destruct Hh as [Hhd _], Hd as [Hdd _].
  split; [|split; [|split]]; (apply exact64_intro; [exact He | | | ]);
    try (repeat apply dyadic_plus; assumption); lra.
Qed.

(** Multiplying an inequality by the number of grains. *)
Lemma scaled_le (e : nat) (a b : Q) : a <= b -> a * scale e <= b * scale e.
Proof.
  intros Hab. apply Qmult_le_compat_r;
    [exact Hab | apply Qlt_le_weak, scale_pos].
Qed.

Lemma nearRange_stepExact (e : nat) (hz : Hazard) :
  (e <= 1000)%nat -> gridHazard e hz -> nearRange hz -> stepExact e hz.
Proof.
  intros He Hg Hnear. apply grid_stepExact; [exact He | exact Hg |].
  intros o Ho. destruct (Hnear o Ho) as [Htop Hbot].
  destruct Hg as (_ & Hh & Hgo). destruct (Hgo o Ho) as (Hd & Ht & Hb).
  destruct (onGrid_bounds e _ Hh) as [Hh1 Hh2].
  destruct (onGrid_bounds e _ Ht) as [Ht1 Ht2].
  destruct (onGrid_bounds e _ Hb) as [Hb1 Hb2].
  destruct Hd as [_ Hd]. pose proof (scale_pos e) as HS.
  apply (scaled_le e) in Htop, Hbot. split; lra.
Qed.

(** C1, as amended. Take a hazard with a descriptor whose [y], [height],
    [dy], [rangeTop] and [rangeBottom] are multiples of some [2^-e],
    [e <= 1000], the last four with numerators of at most [2^50] in
    magnitude, and that starts within its range ([rangeTop <= y] and
    [y + height <= rangeBottom]). After every sequence of key events,
    clicks on Begin and frames it is within one step of its range,
    [y >= rangeTop - |dy|] and [y + height <= rangeBottom + |dy|]; and every
    number the next step reads or adds up is a binary64 number, so that no
    sum of the code has been rounded on the way. *)
Theorem hazards_stay_near_range
    (es : list Event) (g : Game) (i : nat) (hz : Hazard) (e : nat) :
  (e <= 1000)%nat ->
  nth_error (hazards g) i = Some hz ->
  gridHazard e hz ->
  inRange hz ->
  exists hz',
    nth_error (hazards (run es g).1) i = Some hz' /\
    nearRange hz' /\ stepExact e hz'.
Proof.
  intros He Hi Hgrid Hstart. destruct (run_hazards es g) as [m Hm].
  exists (Nat.iter m moveHazard hz).
  assert (Hnear : nearRange (Nat.iter m moveHazard hz))
    by (apply heading_nearRange, iter_heading, inRange_heading, Hstart).
  split; [rewrite Hm; apply map_nth_error, Hi|]. split; [exact Hnear|].
  apply nearRange_stepExact; [exact He | apply iter_gridHazard, Hgrid | exact Hnear].
Qed.

(** The numbers of [dyadic_hazard] are multiples of one half. *)
Ltac half m := split; [exists m; reflexivity | vm_compute; discriminate].

Lemma dyadic_hazard_grid : gridHazard 1 dyadic_hazard.
Proof.
  split; [exists 960%Z; reflexivity|]. split; [half 100%Z|].
  intros o Ho. injection Ho as <-. cbn [dy rangeTop rangeBottom].
  split; [half 3%Z|]. split; [half 960%Z | half 1080%Z].
Qed.

Lemma hazards_stay_near_range_witness :
  exists hz',
    nth_error
      (hazards (run [Frame; Frame; KeyDown "ArrowUp"; Frame] dyadic_level).1) 1
    = Some hz' /\ nearRange hz' /\ stepExact 1 hz'.
Proof.
  apply (hazards_stay_near_range
           [Frame; Frame; KeyDown "ArrowUp"; Frame] dyadic_level
           1 dyadic_hazard 1).
  - lia.
  - reflexivity.
  - exact dyadic_hazard_grid.
  - intros o Ho. injection Ho as <-. split; vm_compute; discriminate.
Defined.

(** C9, as amended. Take a hazard with a descriptor whose [y], [height],
    [dy], [rangeTop] and [rangeBottom] are multiples of some [2^-e],
    [e <= 1000], the last four with numerators of at most [2^50] in
    magnitude, that starts at [y = rangeTop] with [dy > 0], in a game that
    stays unpaused and incomplete. It moves down by [dy] a frame; the
    first frame [n >= 1] that brings its bottom edge to [rangeBottom] or
    past it negates [dy], and the frame after moves it up by [dy]. Its top
    edge never rises above [rangeTop], and where the range can hold the
    hazard its bottom edge passes [rangeBottom] by at most [dy]. At each
    of these frames every number the next step reads or adds up is a
    binary64 number: no sum of the code has been rounded on the way. *)
Theorem oscillating_hazard_turns_at_bottom
    (g : Game) (i : nat) (hz : Hazard) (o : Oscillation) (e : nat) :
  (e <= 1000)%nat ->
  nth_error (hazards g) i = Some hz ->
  oscillation hz = Some o ->
  gridHazard e hz ->
  0 < dy o ->
  y hz == rangeTop o ->
  let n := turnTick hz o in
  (forall k : nat, (k <= n)%nat -> active (frames k g) = true) ->
  (1 <= n)%nat /\
  forall k : nat, (k <= S n)%nat ->
    exists hz_k,
      nth_error (hazards (frames k g)) i = Some hz_k /\
      height hz_k = height hz /\
      ((k <= n)%nat -> y hz_k == rangeTop o + Qnat k * dy o) /\
      ((k < n)%nat -> speed hz_k == dy o) /\
      ((1 <= k < n)%nat -> y hz_k + height hz_k < rangeBottom o) /\
      (k = n ->
       rangeBottom o <= y hz_k + height hz_k /\ speed hz_k == - dy o) /\
      (k = S n -> y hz_k == rangeTop o + Qnat (n - 1) * dy o) /\
      rangeTop o <= y hz_k /\
      (rangeTop o + height hz <= rangeBottom o ->
       y hz_k + height hz_k <= rangeBottom o + dy o) /\
      stepExact e hz_k.
Proof.
  intros He Hi Ho Hgrid Hd Hy n Hact.
  pose proof (turn_profile g i hz o Hi Ho Hd Hy Hact) as Hprofile.
  pose proof (turnTick_spec hz o Hd) as Hspec.
  cbv zeta in Hprofile, Hspec. fold n in Hprofile, Hspec. clearbody n.
  destruct Hprofile as [Hn Hall]. destruct Hspec as (_ & Hshort & _).
  split; [exact Hn|]. intros k Hk.
  destruct (Hall k Hk)
    as (hz_k & Hnth & Hh & Hdown & Hsp & Hin & Hat & Hup & Htop & Hbot).
  exists hz_k. repeat (split; [assumption|]).
  assert (Hiter : hz_k = Nat.iter k moveHazard hz).
  { rewrite frames_hazards in Hnth by (intros j Hj; apply Hact; lia).
    rewrite (map_nth_error _ _ _ Hi) in Hnth. congruence. }
  assert (Hhigh : y hz_k <= rangeTop o + dy o \/
                  y hz_k + height hz <= rangeBottom o + dy o).
  { assert (Hcases : (k = 0 \/ k = 1 \/ 2 <= k <= n \/
                      (k = S n /\ n = 1) \/ (k = S n /\ 2 <= n))%nat) by lia.
    destruct Hcases as [->|[->|[Hmid|[[-> Hone]|[-> Hmore]]]]].
    - left. rewrite Hdown by lia. change (Qnat 0) with 0. lra.
    - left. rewrite Hdown by lia. change (Qnat 1) with 1. lra.
    - right. rewrite Hdown by lia.
      specialize (Hshort (k - 1)%nat ltac:(lia)).
      replace k with (S (k - 1)) at 1 by lia. rewrite Qnat_S. lra.
    - left. rewrite Hup by reflexivity. rewrite Hone.
      change (Qnat (1 - 1)) with 0. lra.
    - right. rewrite Hup by reflexivity.
      specialize (Hshort (n - 1)%nat ltac:(lia)). lra. }
  apply grid_stepExact;
    [exact He | rewrite Hiter; apply iter_gridHazard, Hgrid |].
  intros _ _. destruct Hgrid as (_ & Hgh & Hgo).
  destruct (Hgo o Ho) as (Hgd & Hgt & Hgb).
  destruct (onGrid_bounds e _ Hgh) as [Hh1 Hh2].
  destruct (onGrid_bounds e _ Hgd) as [Hd1 Hd2].
  destruct (onGrid_bounds e _ Hgt) as [Ht1 Ht2].
  destruct (onGrid_bounds e _ Hgb) as [Hb1 Hb2].
  apply (scaled_le e) in Htop.
  destruct Hhigh as [Hhigh|Hhigh]; apply (scaled_le e) in Hhigh; split; lra.
Qed.

Lemma oscillating_hazard_turns_at_bottom_witness :
  turnTick dyadic_hazard (mkOscillation 1.5 480 540) = 7%nat /\
  exists hz_k,
    nth_error (hazards (frames 7 dyadic_level)) 1 = Some hz_k /\
    y hz_k == 490.5 /\ speed hz_k == - 1.5 /\
    540 <= y hz_k + height hz_k /\ y hz_k + height hz_k <= 541.5 /\
    stepExact 1 hz_k.
Proof.
  split; [reflexivity|].
  destruct (oscillating_hazard_turns_at_bottom
              dyadic_level 1 dyadic_hazard (mkOscillation 1.5 480 540) 1)
    as [_ Hall].
  - lia.
  - reflexivity.
  - reflexivity.
  - exact dyadic_hazard_grid.
  - reflexivity.
  - reflexivity.
  - intros k Hk. change (turnTick dyadic_hazard (mkOscillation 1.5 480 540))
      with 7%nat in Hk.
    do 8 (destruct k as [|k]; [vm_compute; reflexivity|]). lia.
  - destruct (Hall 7%nat ltac:(vm_compute; lia))
      as (hz_k & Hnth & Hh & Hdown & _ & _ & Hat & _ & _ & Hbot & Hexact).
    exists hz_k. split; [exact Hnth|].
    destruct (Hat eq_refl) as [Hreach Hspeed].
    specialize (Hdown ltac:(vm_compute; lia)).
    specialize (Hbot ltac:(vm_compute; discriminate)).
    cbn [dy rangeTop rangeBottom] in *.
    change (Qnat 7) with 7 in Hdown.
    split; [lra|]. split; [lra|]. split; [exact Hreach|].
    split; [lra | exact Hexact].
Defined.
